(** * Forte-Controller: the serial batch sender

    A shallow embedding of [serial_sequence_repeater1.1.py] and the
    properties of its batch dispatcher: tokenization of a batch string,
    the DONE handshake, and the exit paths of [main].

    Conventions of the embedding.
    - A Python [str] and a Python [bytes] are both a [string]; the text on
      the wire is ASCII.  The 8-bit codes above 127 that [ascii] also has
      are ordinary characters here: not white space, and without case.
    - [ser.write], [print], [time.sleep], opening and closing the port
      append an [event] to the [trace] of the [world], in program order.
    - [ser.readline()] returns the next element of the [incoming] stream.
    - A loop takes a bound on its number of iterations; [Pending] is the
      outcome of a loop that is still running when the bound is reached. *)

From Stdlib Require Import String Ascii List Arith Bool Lia ZArith.
From Stdlib Require Import DecimalString QArith_base.
Close Scope Q_scope.
Import ListNotations.
Open Scope string_scope.

(** ** Text primitives of the Python runtime *)

Module Text.

Definition nl : string := String "010"%char "".

(** [str.isspace] on one ASCII character: TAB, LF, VT, FF, CR, the four
    separators FS, GS, RS, US and the space. *)
Definition isspace (c : ascii) : bool :=
  let n := nat_of_ascii c in
  (((9 <=? n) && (n <=? 13)) || ((28 <=? n) && (n <=? 32)))%nat.

Definition upper_char (c : ascii) : ascii :=
  let n := nat_of_ascii c in
  if ((97 <=? n) && (n <=? 122))%nat then ascii_of_nat (n - 32) else c.

(** [str.upper] *)
Fixpoint upper (s : string) : string :=
  match s with
  | "" => ""
  | String c s' => String (upper_char c) (upper s')
  end.

(** [str.split()] without argument: the maximal runs of characters that
    are not white space, in order.  [cur] is the run being read. *)
Fixpoint split_from (cur : string) (s : string) : list string :=
  match s with
  | "" => if cur =? "" then [] else [cur]
  | String c s' =>
      if isspace c
      then (if cur =? "" then split_from "" s' else cur :: split_from "" s')
      else split_from (cur ++ String c "") s'
  end.

Definition split (s : string) : list string := split_from "" s.

Fixpoint lstrip (s : string) : string :=
  match s with
  | "" => ""
  | String c s' => if isspace c then lstrip s' else s
  end.

Fixpoint rstrip (s : string) : string :=
  match s with
  | "" => ""
  | String c s' =>
      let r := rstrip s' in
      if isspace c && (r =? "") then "" else String c r
  end.

(** [str.strip()] without argument *)
Definition strip (s : string) : string := rstrip (lstrip s).

(** [pat in s] *)
Fixpoint contains (pat s : string) : bool :=
  String.prefix pat s
  || match s with
     | "" => false
     | String _ s' => contains pat s'
     end.

(** truth value of a [str] *)
Definition truthy (s : string) : bool := negb (s =? "").

(** [" ".join(ts)] *)
Fixpoint join_sp (ts : list string) : string :=
  match ts with
  | [] => ""
  | [t] => t
  | t :: ts' => t ++ " " ++ join_sp ts'
  end.

End Text.
Import Text.

(** ** The world: serial port and console *)

Inductive event : Type :=
| Tx (bytes : string)          (* ser.write(bytes) *)
| Out (text : string)          (* text written to stdout *)
| Sleep (seconds : Q)          (* time.sleep(seconds) *)
| Opened (port : string) (baud : Z)
| Closed.

Record world : Type := mkWorld {
  incoming : nat -> string;    (* what the successive readline calls return *)
  rx : nat;                    (* number of readline calls made so far *)
  trace : list event
}.

Inductive exn : Type :=
| IndexError
| ValueError
| SystemExit (code : Z).

Inductive outcome (A : Type) : Type :=
| Ok (a : A) (w : world)
| Raised (e : exn) (w : world)
| Pending.
Arguments Ok {A} a w.
Arguments Raised {A} e w.
Arguments Pending {A}.

Definition M (A : Type) : Type := world -> outcome A.

Definition ret {A} (a : A) : M A := fun w => Ok a w.

Definition bind {A B} (m : M A) (k : A -> M B) : M B :=
  fun w => match m w with
           | Ok a w' => k a w'
           | Raised e w' => Raised e w'
           | Pending => Pending
           end.

Definition raise {A} (e : exn) : M A := fun w => Raised e w.

Notation "x <- m ;; k" := (bind m (fun x => k))
  (at level 61, m at next level, right associativity).
Notation "m ;;; k" := (bind m (fun _ => k))
  (at level 61, right associativity).

Definition emit (e : event) : M unit :=
  fun w => Ok tt (mkWorld (incoming w) (rx w) (trace w ++ [e])%list).

Definition ser_write (bytes : string) : M unit := emit (Tx bytes).

(** [print(msg)] *)
Definition print (msg : string) : M unit := emit (Out (msg ++ nl)).

(** [print(msg, end="", flush=True)] *)
Definition print_noend (msg : string) : M unit := emit (Out msg).

Definition ser_readline : M string :=
  fun w => Ok (incoming w (rx w)) (mkWorld (incoming w) (S (rx w)) (trace w)).

(** [str.encode()] of ASCII text *)
Definition encode (s : string) : string := s.

(** [xs[i]] *)
Definition item (xs : list string) (i : nat) : M string :=
  match nth_error xs i with
  | Some x => ret x
  | None => raise IndexError
  end.

(** ** The tokenizer of [send_batch_and_wait_done] *)

Inductive ctl : Type :=
| Continue (i : nat)
| Break.

Definition two_arg_or_d (tk : string) : bool :=
  existsb (String.eqb tk) ["A"; "T"; "L"; "D"; "P"].

(** One iteration of [while i < len(tokens)], entered with the cursor at
    [i].  In the second branch [r] is [Some (sub, i')] when [sub] was
    assigned and the cursor moved to [i'], and [None] on [break]. *)
Definition tok_body (tokens : list string) (i : nat) : M ctl :=
  t <- item tokens i ;;
  let tk := upper t in
  if tk =? "ALL" then
    ser_write ("ALL" ++ nl) ;;;
    print "Sent -> ALL" ;;;
    ret (Continue (i + 1))
  else if two_arg_or_d tk then
    r <- (if tk =? "D" then
            if (i + 1 <? length tokens)%nat then
              a <- item tokens (i + 1) ;;
              ret (Some ("D " ++ a, i + 2))
            else
              print "Malformed D command" ;;;
              ret None
          else
            if (i + 2 <? length tokens)%nat then
              a <- item tokens (i + 1) ;;
              b <- item tokens (i + 2) ;;
              ret (Some (tk ++ " " ++ a ++ " " ++ b, i + 3))
            else
              print ("Malformed " ++ tk ++ " command") ;;;
              ret None) ;;
    match r with
    | Some (sub, i') =>
        ser_write (encode (sub ++ nl)) ;;;
        print ("Sent -> " ++ sub) ;;;
        ret (Continue i')
    | None => ret Break
    end
  else
    print ("Skipping unknown token: " ++ t) ;;;
    ret (Continue (i + 1)).

Fixpoint tok_loop (fuel : nat) (tokens : list string) (i : nat) : M unit :=
  if (i <? length tokens)%nat then
    match fuel with
    | 0 => fun _ => Pending
    | S fuel' =>
        c <- tok_body tokens i ;;
        match c with
        | Continue i' => tok_loop fuel' tokens i'
        | Break => ret tt
        end
    end
  else ret tt.

(** The first loop of the function, on the tokens of [cmd_group]. *)
Definition tokenizer (cmd_group : string) : M unit :=
  let tokens := split cmd_group in
  tok_loop (length tokens) tokens 0.

(** ** The handshake and the whole function *)

Section Dispatcher.

(** [bytes.decode(errors='ignore')]: the codec of the runtime, a
    parameter of the development. *)
Variable decode : string -> string.

(** The text the loop tests for the bytes [raw] of one read. *)
Definition line_of (raw : string) : string := strip (decode raw).

(** [while True], with [buffer] the text accumulated so far. *)
Fixpoint wait_loop (fuel : nat) (buffer : string) : M unit :=
  match fuel with
  | 0 => fun _ => Pending
  | S fuel' =>
      raw <- ser_readline ;;
      let line := strip (decode raw) in
      if truthy line then
        print (nl ++ "[Board] " ++ line) ;;;
        let buffer := buffer ++ line in
        if contains "DONE" line then
          print "✔ DONE received."
        else wait_loop fuel' buffer
      else wait_loop fuel' buffer
  end.

Definition send_batch_and_wait_done (fuel : nat) (cmd_group : string)
  : M unit :=
  tokenizer cmd_group ;;;
  let buffer := "" in
  print_noend "Waiting for DONE..." ;;;
  wait_loop fuel buffer.

(** ** Port discovery and the driver *)

(** One entry of [serial.tools.list_ports.comports()]. *)
Record port_info : Type := mkPort {
  device : string;
  description : string
}.

(** The machine the script runs on: the ports it has, and what opening
    one with [Serial(port, baud, timeout=1)] does: [None] when the port
    opens, [Some msg] when [SerialException] is raised, [msg] being the
    text of the exception. *)
Record host : Type := mkHost {
  comports : list port_info;
  serial_open : string -> Z -> option string
}.

(** The parsed command line.  [--port] and [--list] form a required,
    mutually exclusive group, so exactly one of them was given. *)
Inductive target : Type :=
| ListPorts                    (* args.list is True *)
| UsePort (port : string).     (* args.port *)

Record args : Type := mkArgs {
  chosen : target;
  baud : Z;
  delay : Q
}.

Fixpoint for_each {A} (xs : list A) (body : A -> M unit) : M unit :=
  match xs with
  | [] => ret tt
  | x :: xs' => body x ;;; for_each xs' body
  end.

(** [try: body finally: cleanup] *)
Definition try_finally {A} (body : M A) (cleanup : M unit) : M A :=
  fun w => match body w with
           | Ok a w' => (cleanup ;;; ret a) w'
           | Raised e w' => (cleanup ;;; raise e) w'
           | Pending => Pending
           end.

Definition sys_exit {A} (code : Z) : M A := raise (SystemExit code).

(** [time.sleep], which refuses a negative length. *)
Definition sleep (seconds : Q) : M unit :=
  if (Qnum seconds <? 0)%Z then raise ValueError else emit (Sleep seconds).

(** [str] of an [int] *)
Definition str_of_int (n : Z) : string := NilZero.string_of_int (Z.to_int n).

Definition list_ports (h : host) : M unit :=
  let ports := comports h in
  match ports with
  | [] => print "No serial ports found."
  | _ =>
      print "Available serial ports:" ;;;
      for_each ports
        (fun port => print ("  " ++ device port ++ " - " ++ description port))
  end.

Definition startup_commands : list string :=
  ["A 2 1000"; "T 2 2000"; "L 2 200"; "P 2 0 P 1 0 P 0 0"].

Definition commands : list string :=
  ["P 2 0"; "P 2 0"; "P 2 -15000"; "P 2 -15000"].

(** [while True: for idx, batch in enumerate(commands): ...] *)
Fixpoint repeat_loop (fuel : nat) (a : args) : M unit :=
  match fuel with
  | 0 => fun _ => Pending
  | S fuel' =>
      for_each commands
        (fun batch =>
           send_batch_and_wait_done fuel batch ;;;
           sleep (delay a)) ;;;
      repeat_loop fuel' a
  end.

(** [main], after [parse_args] has produced [a].  The interrupt of the
    operator is an event from outside and is not part of the model. *)
Definition main (fuel : nat) (h : host) (a : args) : M unit :=
  match chosen a with
  | ListPorts =>
      list_ports h ;;;
      sys_exit 0
  | UsePort port =>
      match serial_open h port (baud a) with
      | Some e =>
          print ("Error opening " ++ port ++ ": " ++ e) ;;;
          sys_exit 1
      | None =>
          emit (Opened port (baud a)) ;;;
          print ("Opened port " ++ port ++ " at " ++ str_of_int (baud a)
                 ++ " baud") ;;;
          sleep (2 # 1) ;;;
          try_finally
            (print "=== Sending Startup Commands ===" ;;;
             for_each startup_commands
               (fun batch =>
                  send_batch_and_wait_done fuel batch ;;;
                  sleep (delay a)) ;;;
             print (nl ++ "=== Starting Repeating Commands ===") ;;;
             repeat_loop fuel a)
            (emit Closed)
      end
  end.

End Dispatcher.

(** The exit status of the process for an outcome of [main]: the code of
    [sys.exit], 1 for an exception that nobody caught, 0 for a normal
    return; nothing while [main] is still running. *)
Definition exit_code (o : outcome unit) : option Z :=
  match o with
  | Ok _ _ => Some 0%Z
  | Raised (SystemExit c) _ => Some c
  | Raised _ _ => Some 1%Z
  | Pending => None
  end.

Definition final_trace {A} (o : outcome A) : list event :=
  match o with
  | Ok _ w => trace w
  | Raised _ w => trace w
  | Pending => []
  end.

(** The bytes written to the port, in order. *)
Definition sent (tr : list event) : list string :=
  flat_map (fun e => match e with Tx b => [b] | _ => [] end) tr.

(** A world that has done nothing yet, in front of a device that answers
    [lines] and then stays silent. *)
Definition fresh (lines : list string) : world :=
  mkWorld (fun n => nth n lines "") 0 [].

(** ** The tokenizer as a function of the token list

    [tokens_events ts] is what the loop does from a cursor that has [ts]
    in front of it; [tok_loop_events] below proves it of the loop. *)

Definition extend (w : world) (evs : list event) : world :=
  mkWorld (incoming w) (rx w) (trace w ++ evs)%list.

Definition sent_events (sub : string) : list event :=
  [Tx (sub ++ nl); Out (("Sent -> " ++ sub) ++ nl)].

Fixpoint tokens_events (ts : list string) : list event :=
  match ts with
  | [] => []
  | t :: rest =>
      let tk := upper t in
      if tk =? "ALL" then (sent_events "ALL" ++ tokens_events rest)%list
      else if two_arg_or_d tk then
        if tk =? "D" then
          match rest with
          | a :: r => (sent_events ("D " ++ a) ++ tokens_events r)%list
          | [] => [Out ("Malformed D command" ++ nl)]
          end
        else
          match rest with
          | a :: b :: r =>
              (sent_events (tk ++ " " ++ a ++ " " ++ b)
                 ++ tokens_events r)%list
          | _ => [Out (("Malformed " ++ tk ++ " command") ++ nl)]
          end
      else Out (("Skipping unknown token: " ++ t) ++ nl) :: tokens_events rest
  end.

(** ** Vocabulary of the specification *)

(** The number of argument tokens a command word requires. *)
Definition arity (tk : string) : option nat :=
  if tk =? "ALL" then Some 0
  else if tk =? "D" then Some 1
  else if existsb (String.eqb tk) ["A"; "T"; "L"; "P"] then Some 2
  else None.

(** A token list made only of command words, each followed by as many
    argument tokens as it requires. *)
Inductive well_formed : list string -> Prop :=
| wf_nil : well_formed []
| wf_cmd (t : string) (args rest : list string) :
    arity (upper t) = Some (length args) ->
    well_formed rest ->
    well_formed (t :: args ++ rest)%list.

(** Greedy grouping, left to right: a command word takes the next
    [arity] tokens as its arguments, and grouping goes on behind them.
    [n] bounds the number of groups. *)
Fixpoint group_upto (n : nat) (ts : list string) : list (list string) :=
  match n, ts with
  | S n', t :: rest =>
      match arity (upper t) with
      | Some k =>
          if (k <=? length rest)%nat
          then (upper t :: firstn k rest) :: group_upto n' (skipn k rest)
          else []
      | None => []
      end
  | _, _ => []
  end.

Definition greedy_group (ts : list string) : list (list string) :=
  group_upto (length ts) ts.

(** The cursor of the tokenizer, started at 0 in world [w0], stands at
    [i] in world [w] at the head of some iteration. *)
Inductive runs_to (tokens : list string) (w0 : world) : nat -> world -> Prop :=
| runs_start : runs_to tokens w0 0 w0
| runs_step (i : nat) (w : world) (i' : nat) (w' : world) :
    runs_to tokens w0 i w ->
    i < length tokens ->
    tok_body tokens i w = Ok (Continue i') w' ->
    runs_to tokens w0 i' w'.

(** [xs] with its element at [i] replaced by [x]. *)
Definition replace_at (i : nat) (x : string) (xs : list string) : list string :=
  (firstn i xs ++ x :: skipn (S i) xs)%list.

(** The events a computation appends to the trace of [w]. *)
Definition appended {A} (m : M A) (w : world) : list event :=
  skipn (length (trace w)) (final_trace (m w)).

(** The sub-commands (as the bytes written) that the tokenizer sends for
    a batch string, when run in [w]. *)
Definition subcommands (cmd_group : string) (w : world) : list string :=
  sent (appended (tokenizer cmd_group) w).

(** The first word of a line sent to the board. *)
Definition keyword (bytes : string) : string := hd "" (split bytes).

(** What the handshake prints for one read: nothing for an empty line. *)
Definition board_log (line : string) : list event :=
  if truthy line then [Out ((nl ++ "[Board] " ++ line) ++ nl)] else [].

(** Whether the [j]-th read of the port gives a line with DONE in it. *)
Definition done_at (decode : string -> string) (w : world) (j : nat) : bool :=
  contains "DONE" (line_of decode (incoming w j)).

(** What the handshake prints for the [n] reads that follow those
    already made in [w]. *)
Definition handshake_log (decode : string -> string) (w : world) (n : nat)
  : list event :=
  flat_map (fun j => board_log (line_of decode (incoming w j))) (seq (rx w) n).

(** What [list_ports] prints on host [h]. *)
Definition ports_listing (h : host) : list string :=
  match comports h with
  | [] => ["No serial ports found." ++ nl]
  | ports =>
      ("Available serial ports:" ++ nl)
        :: map (fun port =>
                  ("  " ++ device port ++ " - " ++ description port) ++ nl)
               ports
  end.

(** Tokens: text that is not empty and has no white space in it. *)
Fixpoint no_space (s : string) : bool :=
  match s with
  | "" => true
  | String c s' => negb (isspace c) && no_space s'
  end.

Definition is_word (s : string) : bool := truthy s && no_space s.

(** A token list parsed to its end by the loop: commands with their
    arguments and unknown tokens, nothing left over. *)
Inductive parsed : list string -> Prop :=
| parsed_nil : parsed []
| parsed_all (t : string) (rest : list string) :
    upper t = "ALL" -> parsed rest -> parsed (t :: rest)
| parsed_d (t a : string) (rest : list string) :
    upper t <> "ALL" -> upper t = "D" -> parsed rest -> parsed (t :: a :: rest)
| parsed_two (t a b : string) (rest : list string) :
    upper t <> "ALL" -> two_arg_or_d (upper t) = true -> upper t <> "D" ->
    parsed rest -> parsed (t :: a :: b :: rest)
| parsed_skip (t : string) (rest : list string) :
    upper t <> "ALL" -> two_arg_or_d (upper t) = false ->
    parsed rest -> parsed (t :: rest).

(** ** Vocabulary for the further properties *)

(** Text made of white space only (the empty text included). *)
Fixpoint all_space (s : string) : bool :=
  match s with
  | "" => true
  | String c s' => isspace c && all_space s'
  end.

(** The commands the loop sends for the tokens [ts], each as the list of
    its words: [tokens_events] without the notices. *)
Fixpoint wire_groups (ts : list string) : list (list string) :=
  match ts with
  | [] => []
  | t :: rest =>
      let tk := upper t in
      if tk =? "ALL" then ["ALL"] :: wire_groups rest
      else if two_arg_or_d tk then
        if tk =? "D" then
          match rest with
          | a :: r => ["D"; a] :: wire_groups r
          | [] => []
          end
        else
          match rest with
          | a :: b :: r => [tk; a; b] :: wire_groups r
          | _ => []
          end
      else wire_groups rest
  end.

(** A complete command: a command word in upper case with exactly the
    arguments it requires, all of them words. *)
Definition complete_command (g : list string) : Prop :=
  exists (k : string) (args : list string),
    g = k :: args /\ arity k = Some (length args) /\ upper k = k /\
    Forall (fun t => is_word t = true) args.

(** [xs] is picked from [ts] in order, a picked token being taken as it
    is or in upper case. *)
Inductive picked_from : list string -> list string -> Prop :=
| picked_nil (ts : list string) : picked_from [] ts
| picked_skip (t : string) (xs ts : list string) :
    picked_from xs ts -> picked_from xs (t :: ts)
| picked_keep (x t : string) (xs ts : list string) :
    x = t \/ x = upper t ->
    picked_from xs ts -> picked_from (x :: xs) (t :: ts).

(** A token that is no command word. *)
Definition unknown_token (t : string) : Prop :=
  upper t <> "ALL" /\ two_arg_or_d (upper t) = false.



(** ** Lemmas on worlds and lists *)

Lemma extend_nil (w : world) : extend w [] = w.
Proof. destruct w; unfold extend; simpl. now rewrite app_nil_r. Qed.

Lemma extend_extend (w : world) (e1 e2 : list event) :
  extend (extend w e1) e2 = extend w (e1 ++ e2).
Proof. unfold extend; simpl. now rewrite app_assoc. Qed.

Lemma skipn_cons_nth {A} (xs : list A) (i : nat) (x : A) (rest : list A) :
  skipn i xs = x :: rest ->
  nth_error xs i = Some x /\ skipn (S i) xs = rest /\
  length xs = i + S (length rest).
Proof.
  revert xs; induction i as [|i IH]; intros [|y ys] H; simpl in *;
    try discriminate.
  - inversion H; subst; auto.
  - destruct (IH ys H) as (H1 & H2 & H3); repeat split; auto.
Qed.

Lemma skipn_S_add {A} (xs : list A) (i k : nat) :
  skipn (i + k) xs = skipn k (skipn i xs).
Proof. rewrite Nat.add_comm. symmetry. apply skipn_skipn. Qed.

Lemma emit_extend (e : event) (w : world) : emit e w = Ok tt (extend w [e]).
Proof. reflexivity. Qed.

(** Runs the writes and prints at the head of a goal. *)
Ltac run_io :=
  unfold ser_write, print, print_noend, encode, ret, sent_events;
  repeat (rewrite emit_extend; cbv beta iota);
  rewrite ?extend_extend; simpl app ; try reflexivity.

(** One iteration, seen from the tokens in front of the cursor. *)
Lemma tok_body_view (tokens : list string) (i : nat) (t : string)
      (rest : list string) (w : world) :
  skipn i tokens = t :: rest ->
  tok_body tokens i w =
  let tk := upper t in
  if tk =? "ALL" then Ok (Continue (i + 1)) (extend w (sent_events "ALL"))
  else if two_arg_or_d tk then
    if tk =? "D" then
      match rest with
      | a :: _ => Ok (Continue (i + 2)) (extend w (sent_events ("D " ++ a)))
      | [] => Ok Break (extend w [Out ("Malformed D command" ++ nl)])
      end
    else
      match rest with
      | a :: b :: _ =>
          Ok (Continue (i + 3))
             (extend w (sent_events (tk ++ " " ++ a ++ " " ++ b)))
      | _ => Ok Break (extend w [Out (("Malformed " ++ tk ++ " command") ++ nl)])
      end
  else Ok (Continue (i + 1))
          (extend w [Out (("Skipping unknown token: " ++ t) ++ nl)]).
Proof.
  intros H. destruct (skipn_cons_nth _ _ _ _ H) as (Ht & Hrest & Hlen).
  unfold tok_body, bind, item. rewrite Ht. cbv zeta. unfold ret at 1.
  destruct (upper t =? "ALL") eqn:Eall.
  { run_io. }
  destruct (two_arg_or_d (upper t)) eqn:Eset; [|run_io].
  destruct (upper t =? "D") eqn:Ed.
  - destruct rest as [|a r].
    + replace (i + 1 <? length tokens)%nat with false
        by (symmetry; apply Nat.ltb_ge; simpl in Hlen; lia).
      run_io.
    + replace (i + 1 <? length tokens)%nat with true
        by (symmetry; apply Nat.ltb_lt; simpl in Hlen; lia).
      assert (Ha : nth_error tokens (i + 1) = Some a).
      { rewrite Nat.add_1_r. 
        destruct (skipn_cons_nth tokens (S i) a r Hrest) as (Ha & _). exact Ha. }
      rewrite Ha. run_io.
  - destruct rest as [|a [|b r]].
    + replace (i + 2 <? length tokens)%nat with false
        by (symmetry; apply Nat.ltb_ge; simpl in Hlen; lia).
      run_io.
    + replace (i + 2 <? length tokens)%nat with false
        by (symmetry; apply Nat.ltb_ge; simpl in Hlen; lia).
      run_io.
    + replace (i + 2 <? length tokens)%nat with true
        by (symmetry; apply Nat.ltb_lt; simpl in Hlen; lia).
      destruct (skipn_cons_nth tokens (S i) a (b :: r) Hrest) as (Ha & Hr2 & _).
      destruct (skipn_cons_nth tokens (S (S i)) b r Hr2) as (Hb & _).
      replace (i + 1) with (S i) by lia. replace (i + 2) with (S (S i)) by lia.
      rewrite Ha, Hb. run_io.
Qed.

Lemma tok_loop_unfold (fuel : nat) (tokens : list string) (i : nat) (w : world) :
  tok_loop (S fuel) tokens i w =
  if (i <? length tokens)%nat then
    match tok_body tokens i w with
    | Ok (Continue i') w' => tok_loop fuel tokens i' w'
    | Ok Break w' => Ok tt w'
    | Raised e w' => Raised e w'
    | Pending => Pending
    end
  else Ok tt w.
Proof.
  simpl. destruct (i <? length tokens)%nat; [|reflexivity].
  unfold bind. destruct (tok_body tokens i w) as [[i'|] w'| |]; reflexivity.
Qed.

Lemma tok_loop_past (fuel : nat) (tokens : list string) (i : nat) (w : world) :
  length tokens <= i -> tok_loop fuel tokens i w = Ok tt w.
Proof.
  intros H. apply Nat.ltb_ge in H.
  destruct fuel; simpl; rewrite H; reflexivity.
Qed.

(** The loop refines [tokens_events]: with a bound that covers the tokens
    still in front of the cursor it exits, and has done exactly what
    [tokens_events] says. *)
Lemma tok_loop_events (fuel : nat) (tokens : list string) :
  forall (i : nat) (w : world),
    length tokens - i <= fuel ->
    tok_loop fuel tokens i w =
    Ok tt (extend w (tokens_events (skipn i tokens))).
Proof.
  induction fuel as [|fuel IH]; intros i w Hf.
  - rewrite tok_loop_past by lia.
    rewrite skipn_all2 by lia. now rewrite extend_nil.
  - destruct (Nat.le_gt_cases (length tokens) i) as [Hge|Hlt].
    { rewrite tok_loop_past by lia.
      rewrite skipn_all2 by lia. now rewrite extend_nil. }
    rewrite tok_loop_unfold.
    replace (i <? length tokens)%nat with true
      by (symmetry; now apply Nat.ltb_lt).
    destruct (skipn i tokens) as [|t rest] eqn:Hs.
    { apply (f_equal (@length string)) in Hs.
      rewrite length_skipn in Hs. simpl in Hs. lia. }
    rewrite (tok_body_view _ _ _ _ w Hs). cbv zeta.
    destruct (skipn_cons_nth _ _ _ _ Hs) as (_ & Hrest & Hlen).
    assert (H1 : skipn (i + 1) tokens = rest)
      by (now rewrite Nat.add_1_r).
    simpl tokens_events.
    destruct (upper t =? "ALL").
    { rewrite IH by lia. now rewrite extend_extend, H1. }
    destruct (two_arg_or_d (upper t)).
    2:{ rewrite IH by lia. now rewrite extend_extend, H1. }
    destruct (upper t =? "D").
    + destruct rest as [|a r]; [reflexivity|].
      rewrite IH by (simpl in Hlen; lia).
      rewrite extend_extend. rewrite (skipn_S_add tokens i 2), Hs. reflexivity.
    + destruct rest as [|a [|b r]]; try reflexivity.
      rewrite IH by (simpl in Hlen; lia).
      rewrite extend_extend. rewrite (skipn_S_add tokens i 3), Hs. reflexivity.
Qed.

(** What the tokenizer does on a batch string. *)
Lemma tokenizer_events (cmd_group : string) (w : world) :
  tokenizer cmd_group w = Ok tt (extend w (tokens_events (split cmd_group))).
Proof.
  unfold tokenizer. cbv zeta. rewrite tok_loop_events by lia. reflexivity.
Qed.

(** A larger bound changes nothing once the loop has exited. *)
Lemma tok_loop_mono (fuel : nat) (tokens : list string) :
  forall (i : nat) (w : world) (r : outcome unit) (fuel' : nat),
    tok_loop fuel tokens i w = r -> r <> Pending -> fuel <= fuel' ->
    tok_loop fuel' tokens i w = r.
Proof.
  induction fuel as [|fuel IH]; intros i w r fuel' H Hr Hle.
  - destruct (Nat.le_gt_cases (length tokens) i) as [Hge|Hlt].
    + rewrite tok_loop_past in * by lia. exact H.
    + simpl in H. apply Nat.ltb_lt in Hlt. rewrite Hlt in H. congruence.
  - destruct fuel' as [|fuel']; [lia|].
    rewrite tok_loop_unfold in *.
    destruct (i <? length tokens)%nat; [|exact H].
    destruct (tok_body tokens i w) as [[i'|] w'| |]; try exact H.
    apply (IH _ _ _ _ H Hr). lia.
Qed.

(** ** Splitting and joining *)

Lemma append_empty_r (s : string) : s ++ "" = s.
Proof. induction s as [|c s IH]; simpl; [reflexivity|now rewrite IH]. Qed.

Lemma append_append (s1 s2 s3 : string) : (s1 ++ s2) ++ s3 = s1 ++ s2 ++ s3.
Proof. induction s1 as [|c s1 IH]; simpl; [reflexivity|now rewrite IH]. Qed.

Lemma no_space_append (s1 s2 : string) :
  no_space (s1 ++ s2) = no_space s1 && no_space s2.
Proof.
  induction s1 as [|c s1 IH]; simpl; [reflexivity|].
  now rewrite IH, andb_assoc.
Qed.

(** Reading a run of characters without white space extends the current
    run. *)
Lemma split_from_run (t : string) :
  forall (cur rest : string),
    no_space t = true ->
    split_from cur (t ++ rest) = split_from (cur ++ t) rest.
Proof.
  induction t as [|c t IH]; intros cur rest Ht; simpl in *.
  - now rewrite append_empty_r.
  - apply andb_prop in Ht. destruct Ht as (Hc & Ht).
    apply negb_true_iff in Hc. rewrite Hc.
    rewrite IH by exact Ht. now rewrite append_append.
Qed.

Lemma is_word_inv (t : string) :
  is_word t = true -> (t =? "") = false /\ no_space t = true.
Proof.
  unfold is_word, truthy. intros H. apply andb_prop in H.
  destruct H as (H1 & H2). split; [now apply negb_true_iff|exact H2].
Qed.

(** Every token list is the split of its join: the token-level lemmas
    below speak of all batches. *)
Lemma split_join (ts : list string) :
  Forall (fun t => is_word t = true) ts -> split (join_sp ts) = ts.
Proof.
  unfold split. induction 1 as [|t ts Ht Hts IH]; [reflexivity|].
  destruct (is_word_inv _ Ht) as (Hne & Hns).
  destruct ts as [|t2 ts].
  - simpl. rewrite <- (append_empty_r t) at 1.
    rewrite split_from_run by exact Hns. simpl. now rewrite Hne.
  - change (join_sp (t :: t2 :: ts)) with (t ++ " " ++ join_sp (t2 :: ts)).
    rewrite split_from_run by exact Hns. simpl. rewrite Hne.
    f_equal. exact IH.
Qed.

(** A line as it is written to the port splits into its words. *)
Lemma split_join_nl (ts : list string) :
  Forall (fun t => is_word t = true) ts -> ts <> [] ->
  split (join_sp ts ++ nl) = ts.
Proof.
  unfold split. induction 1 as [|t ts Ht Hts IH]; intros Hnil; [congruence|].
  destruct (is_word_inv _ Ht) as (Hne & Hns).
  destruct ts as [|t2 ts].
  - simpl join_sp. rewrite split_from_run by exact Hns. simpl. now rewrite Hne.
  - change (join_sp (t :: t2 :: ts)) with (t ++ " " ++ join_sp (t2 :: ts)).
    rewrite append_append. rewrite split_from_run by exact Hns.
    simpl. rewrite Hne. f_equal. apply IH. discriminate.
Qed.

Lemma split_from_words (s : string) :
  forall cur : string,
    no_space cur = true ->
    Forall (fun t => is_word t = true) (split_from cur s).
Proof.
  induction s as [|c s IH]; intros cur Hcur; simpl.
  - destruct (cur =? "") eqn:E; constructor; [|constructor].
    unfold is_word, truthy. now rewrite E, Hcur.
  - destruct (isspace c) eqn:Hc.
    + destruct (cur =? "") eqn:E; [now apply IH|].
      constructor; [|now apply IH].
      unfold is_word, truthy. now rewrite E, Hcur.
    + apply IH. rewrite no_space_append, Hcur. simpl. now rewrite Hc.
Qed.

(** The tokens of a batch string are words. *)
Lemma split_words (s : string) : Forall (fun t => is_word t = true) (split s).
Proof. now apply split_from_words. Qed.

(** ** One iteration of the tokenizer *)

Lemma nth_error_skipn_cons {A} (xs : list A) (i : nat) (x : A) :
  nth_error xs i = Some x -> exists rest, skipn i xs = x :: rest.
Proof.
  revert xs; induction i as [|i IH]; intros [|y ys] H; simpl in *;
    try discriminate.
  - inversion H; subst. now exists ys.
  - now apply IH.
Qed.

Lemma arity_cases (tk : string) (n : nat) :
  arity tk = Some n ->
  (tk = "ALL" /\ n = 0) \/
  ((tk =? "ALL") = false /\ tk = "D" /\ n = 1) \/
  ((tk =? "ALL") = false /\ (tk =? "D") = false /\
   two_arg_or_d tk = true /\ n = 2).
Proof.
  unfold arity, two_arg_or_d. simpl.
  destruct (tk =? "ALL") eqn:Eall.
  { intros H; inversion H. left. split; [now apply String.eqb_eq|reflexivity]. }
  destruct (tk =? "D") eqn:Ed.
  { intros H; inversion H. right; left.
    repeat split. now apply String.eqb_eq. }
  destruct (tk =? "A"), (tk =? "T"), (tk =? "L"), (tk =? "P"); simpl;
    intros H; inversion H; right; right; repeat split.
Qed.

Lemma command_word_cases (tk : string) :
  In tk ["ALL"; "A"; "T"; "L"; "D"; "P"] ->
  (tk =? "ALL") = true \/ ((tk =? "ALL") = false /\ two_arg_or_d tk = true).
Proof.
  simpl. intros [H|[H|[H|[H|[H|[H|[]]]]]]]; subst; auto.
Qed.

Lemma two_arg_or_d_cases (tk : string) :
  two_arg_or_d tk = true ->
  tk = "A" \/ tk = "T" \/ tk = "L" \/ tk = "D" \/ tk = "P".
Proof.
  unfold two_arg_or_d. intros H. apply existsb_exists in H.
  destruct H as (x & Hin & Hx). apply String.eqb_eq in Hx. subst x.
  simpl in Hin. intuition auto.
Qed.

(** A command word with its arguments in front of the cursor: one
    sub-command is sent, the word in upper case and the arguments as they
    are, and the cursor moves behind them. *)
Lemma tok_body_command (tokens : list string) (i : nat) (t : string)
      (args rest : list string) (w : world) :
  skipn i tokens = (t :: args ++ rest)%list ->
  arity (upper t) = Some (length args) ->
  tok_body tokens i w =
  Ok (Continue (i + 1 + length args))
     (extend w (sent_events (join_sp (upper t :: args)))).
Proof.
  intros Hs Har. rewrite (tok_body_view _ _ _ _ w Hs). cbv zeta.
  destruct (arity_cases _ _ Har) as [(E & Hn)|[(Eall & E & Hn)|(Eall & Ed & Eset & Hn)]].
  - destruct args; [|discriminate]. rewrite E. simpl.
    now rewrite Nat.add_0_r.
  - destruct args as [|a [|? ?]]; try discriminate.
    rewrite E. simpl. now replace (i + 1 + 1) with (i + 2) by lia.
  - destruct args as [|a [|b [|? ?]]]; try discriminate.
    rewrite Eall, Eset, Ed. simpl. now replace (i + 1 + 2) with (i + 3) by lia.
Qed.

Lemma tok_body_unknown (tokens : list string) (i : nat) (t : string)
      (w : world) :
  nth_error tokens i = Some t ->
  upper t <> "ALL" -> two_arg_or_d (upper t) = false ->
  tok_body tokens i w =
  Ok (Continue (i + 1))
     (extend w [Out (("Skipping unknown token: " ++ t) ++ nl)]).
Proof.
  intros Ht Hall Hset.
  destruct (nth_error_skipn_cons _ _ _ Ht) as (rest & Hs).
  rewrite (tok_body_view _ _ _ _ w Hs). cbv zeta.
  apply String.eqb_neq in Hall. now rewrite Hall, Hset.
Qed.

(** Every iteration ends in [break] or moves the cursor forward by one,
    two or three tokens, never past the end; it appends events and does
    not read from the port. *)
Lemma tok_body_advance (tokens : list string) (i : nat) (w : world) :
  i < length tokens ->
  exists evs,
    tok_body tokens i w = Ok Break (extend w evs) \/
    exists d, (d = 1 \/ d = 2 \/ d = 3) /\ i + d <= length tokens /\
              tok_body tokens i w = Ok (Continue (i + d)) (extend w evs).
Proof.
  intros Hlt.
  destruct (skipn i tokens) as [|t rest] eqn:Hs.
  { apply (f_equal (@length string)) in Hs.
    rewrite length_skipn in Hs. simpl in Hs. lia. }
  destruct (skipn_cons_nth _ _ _ _ Hs) as (_ & _ & Hlen).
  rewrite (tok_body_view _ _ _ _ w Hs). cbv zeta.
  destruct (upper t =? "ALL").
  { eexists; right; exists 1. repeat split; eauto; lia. }
  destruct (two_arg_or_d (upper t)).
  2:{ eexists; right; exists 1. repeat split; eauto; lia. }
  destruct (upper t =? "D").
  - destruct rest as [|a r].
    + eexists; left; reflexivity.
    + eexists; right; exists 2. simpl in Hlen. repeat split; eauto; lia.
  - destruct rest as [|a [|b r]].
    + eexists; left; reflexivity.
    + eexists; left; reflexivity.
    + eexists; right; exists 3. simpl in Hlen. repeat split; eauto; lia.
Qed.

Lemma appended_extend {A} (m : M A) (w : world) (a : A) (evs : list event) :
  m w = Ok a (extend w evs) -> appended m w = evs.
Proof.
  intros H. unfold appended. rewrite H. simpl.
  rewrite skipn_app, skipn_all, Nat.sub_diag. reflexivity.
Qed.

Lemma appended_tokenizer (cmd_group : string) (w : world) :
  appended (tokenizer cmd_group) w = tokens_events (split cmd_group).
Proof. apply (appended_extend _ _ tt). apply tokenizer_events. Qed.

(** ** Termination of the tokenizer *)

(** C9. On every batch string the tokenization loop terminates: an
    iteration entered with the cursor inside the token list either leaves
    the loop through [break] or moves the cursor forward by exactly 1, 2 or
    3 without passing the end, so that as many iterations as there are
    tokens are always enough for the loop to exit, and allowing more
    changes nothing. *)
Theorem tokenizer_terminates (cmd_group : string) (w : world) :
  (forall (i : nat) (w1 : world),
      i < length (split cmd_group) ->
      exists w2,
        tok_body (split cmd_group) i w1 = Ok Break w2 \/
        exists d, (d = 1 \/ d = 2 \/ d = 3) /\
                  i + d <= length (split cmd_group) /\
                  tok_body (split cmd_group) i w1 = Ok (Continue (i + d)) w2)
  /\ (exists w', tok_loop (length (split cmd_group)) (split cmd_group) 0 w
                 = Ok tt w')
  /\ (forall fuel : nat,
         length (split cmd_group) <= fuel ->
         tok_loop fuel (split cmd_group) 0 w = tokenizer cmd_group w).
Proof.
  repeat split.
  - intros i w1 Hlt.
    destruct (tok_body_advance _ _ w1 Hlt) as (evs & [H|(d & Hd & Hle & H)]).
    + eexists; left; exact H.
    + eexists; right; exists d; repeat split; eauto.
  - eexists. apply tok_loop_events. lia.
  - intros fuel Hle. rewrite tokenizer_events.
    apply tok_loop_events. lia.
Qed.

(** ** Unknown tokens and argument tokens *)

(** C3. When the cursor is at a token whose upper-case form is neither
    ALL nor one of A, T, L, D, P, the iteration prints the skipping notice
    with the token as it was written, moves the cursor forward by exactly
    one and does not leave the loop: the loop goes on from the next token.
    The batch "XYZ P 1 5" sends the single sub-command "P 1 5". *)
Theorem unknown_token_skipped (cmd_group : string) (i : nat) (t : string)
        (w : world) :
  nth_error (split cmd_group) i = Some t ->
  upper t <> "ALL" ->
  two_arg_or_d (upper t) = false ->
  tok_body (split cmd_group) i w =
    Ok (Continue (i + 1))
       (extend w [Out ("Skipping unknown token: " ++ t ++ nl)])
  /\ (forall fuel : nat,
         tok_loop (S fuel) (split cmd_group) i w =
         tok_loop fuel (split cmd_group) (i + 1)
           (extend w [Out ("Skipping unknown token: " ++ t ++ nl)]))
  /\ (forall w' : world, subcommands "XYZ P 1 5" w' = ["P 1 5" ++ nl]).
Proof.
  intros Ht Hall Hset.
  pose proof (tok_body_unknown _ _ _ w Ht Hall Hset) as Hb.
  repeat split.
  - exact Hb.
  - intros fuel. rewrite tok_loop_unfold, Hb.
    replace (i <? length (split cmd_group))%nat with true; [reflexivity|].
    symmetry. apply Nat.ltb_lt. apply nth_error_Some. congruence.
  - intros w'. unfold subcommands. rewrite appended_tokenizer. reflexivity.
Qed.

Lemma unknown_token_skipped_witness :
  tok_body (split "XYZ P 1 5") 0 (fresh []) =
    Ok (Continue (0 + 1))
       (extend (fresh []) [Out ("Skipping unknown token: " ++ "XYZ" ++ nl)])
  /\ (forall fuel : nat,
         tok_loop (S fuel) (split "XYZ P 1 5") 0 (fresh []) =
         tok_loop fuel (split "XYZ P 1 5") (0 + 1)
           (extend (fresh []) [Out ("Skipping unknown token: " ++ "XYZ" ++ nl)]))
  /\ (forall w' : world, subcommands "XYZ P 1 5" w' = ["P 1 5" ++ nl]).
Proof.
  apply (unknown_token_skipped "XYZ P 1 5" 0 "XYZ" (fresh [])).
  - reflexivity.
  - vm_compute. discriminate.
  - reflexivity.
Defined.

(** C10. Argument tokens are neither checked nor changed.  When the
    cursor is at a command word (A, T, L, P with two tokens behind it, D
    with one), whatever those tokens are, the sub-command that is written
    and logged is the word in upper case followed by the argument tokens
    exactly as they stand in the batch, and the cursor moves behind them.
    The batch "p P x" sends the single sub-command "P P x". *)
Theorem arguments_verbatim (cmd_group : string) (i : nat) (t : string)
        (args rest : list string) (w : world) :
  skipn i (split cmd_group) = (t :: args ++ rest)%list ->
  arity (upper t) = Some (length args) ->
  tok_body (split cmd_group) i w =
    Ok (Continue (i + 1 + length args))
       (extend w [Tx (join_sp (upper t :: args) ++ nl);
                  Out ("Sent -> " ++ join_sp (upper t :: args) ++ nl)])
  /\ (forall w' : world, subcommands "p P x" w' = ["P P x" ++ nl]).
Proof.
  intros Hs Har. split.
  - apply (tok_body_command _ _ _ _ _ w Hs Har).
  - intros w'. unfold subcommands. rewrite appended_tokenizer. reflexivity.
Qed.

Lemma arguments_verbatim_witness :
  tok_body (split "p P x") 0 (fresh []) =
    Ok (Continue (0 + 1 + 2))
       (extend (fresh []) [Tx ("P P x" ++ nl); Out ("Sent -> P P x" ++ nl)])
  /\ (forall w' : world, subcommands "p P x" w' = ["P P x" ++ nl]).
Proof.
  apply (arguments_verbatim "p P x" 0 "p" ["P"; "x"] [] (fresh []));
    reflexivity.
Defined.

(** ** Determinism *)

(** C7. The sub-commands the tokenizer sends depend on the batch string
    alone: run in any two worlds (whatever was sent, printed or read
    before, whatever the board answers) it appends the same events, so the
    same sub-commands; it reads nothing from the port, and run a second
    time where the first run ended it sends the same sub-commands again. *)
Theorem tokenizer_deterministic (cmd_group : string) (w1 w2 : world) :
  subcommands cmd_group w1 = subcommands cmd_group w2
  /\ appended (tokenizer cmd_group) w1 = appended (tokenizer cmd_group) w2
  /\ exists w1' : world,
       tokenizer cmd_group w1 = Ok tt w1'
       /\ rx w1' = rx w1 /\ incoming w1' = incoming w1
       /\ subcommands cmd_group w1' = subcommands cmd_group w1.
Proof.
  unfold subcommands. rewrite !appended_tokenizer. repeat split.
  exists (extend w1 (tokens_events (split cmd_group))).
  rewrite appended_tokenizer. repeat split. apply tokenizer_events.
Qed.

(** ** Well-formed batches *)

Lemma tokens_events_command (t : string) (args rest : list string) :
  arity (upper t) = Some (length args) ->
  tokens_events (t :: args ++ rest) =
  (sent_events (join_sp (upper t :: args)) ++ tokens_events rest)%list.
Proof.
  intros Har. simpl tokens_events.
  destruct (arity_cases _ _ Har) as [(E & Hn)|[(Eall & E & Hn)|(Eall & Ed & Eset & Hn)]].
  - destruct args; [|discriminate]. rewrite E. reflexivity.
  - destruct args as [|a [|? ?]]; try discriminate. rewrite E. reflexivity.
  - destruct args as [|a [|b [|? ?]]]; try discriminate.
    rewrite Eall, Eset, Ed. reflexivity.
Qed.

Lemma sent_sent_events (sub : string) (evs : list event) :
  sent (sent_events sub ++ evs) = (sub ++ nl) :: sent evs.
Proof. reflexivity. Qed.

Lemma sent_groups (gs : list (list string)) :
  sent (flat_map (fun g => sent_events (join_sp g)) gs) =
  map (fun g => join_sp g ++ nl) gs.
Proof.
  induction gs as [|g gs IH]; [reflexivity|].
  cbn [flat_map map]. rewrite sent_sent_events. now rewrite IH.
Qed.

Lemma well_formed_groups (ts : list string) :
  well_formed ts ->
  forall n : nat,
    length ts <= n ->
    tokens_events ts =
      flat_map (fun g => sent_events (join_sp g)) (group_upto n ts)
    /\ Forall2 (fun x t => x = t \/ x = upper t)
               (concat (group_upto n ts)) ts.
Proof.
  induction 1 as [|t args rest Har Hwf IH]; intros n Hn.
  - destruct n; simpl; split; constructor.
  - destruct n as [|n]; [simpl in Hn; lia|].
    simpl in Hn. rewrite length_app in Hn.
    cbn [group_upto]. rewrite Har.
    replace (length args <=? length (args ++ rest))%nat with true
      by (symmetry; apply Nat.leb_le; rewrite length_app; lia).
    rewrite firstn_app, firstn_all, Nat.sub_diag, firstn_0, app_nil_r.
    rewrite skipn_app, skipn_all, Nat.sub_diag, skipn_0. cbn [app].
    destruct (IH n) as (IHe & IHt); [lia|].
    split.
    + rewrite tokens_events_command by exact Har.
      cbn [flat_map]. now rewrite <- IHe.
    + cbn [concat]. rewrite <- app_comm_cons. constructor; [now right|].
      apply Forall2_app; [|exact IHt].
      clear. induction args; constructor; auto.
Qed.

Lemma arity_word (tk : string) (n : nat) :
  arity tk = Some n -> is_word tk = true.
Proof.
  intros H.
  destruct (arity_cases _ _ H) as [(E & _)|[(_ & E & _)|(_ & _ & Eset & _)]];
    try (rewrite E; reflexivity).
  destruct (two_arg_or_d_cases _ Eset) as [E|[E|[E|[E|E]]]];
    rewrite E; reflexivity.
Qed.

Lemma Forall_firstn_skipn {A} (P : A -> Prop) (k : nat) (xs : list A) :
  Forall P xs -> Forall P (firstn k xs) /\ Forall P (skipn k xs).
Proof.
  intros H. rewrite <- (firstn_skipn k xs) in H.
  now apply Forall_app in H.
Qed.

(** The groups of a list of words are non-empty lists of words. *)
Lemma group_upto_words (n : nat) :
  forall ts : list string,
    Forall (fun t => is_word t = true) ts ->
    Forall (fun g => Forall (fun t => is_word t = true) g /\ g <> [])
           (group_upto n ts).
Proof.
  induction n as [|n IH]; intros [|t rest] Hts; cbn [group_upto];
    try constructor.
  destruct (arity (upper t)) as [k|] eqn:Har; [|constructor].
  destruct (k <=? length rest)%nat; [|constructor].
  inversion Hts as [|? ? _ Hrest]; subst.
  destruct (Forall_firstn_skipn _ k rest Hrest) as (Hf & Hs).
  constructor; [split; [|discriminate]|now apply IH].
  constructor; [exact (arity_word _ _ Har)|exact Hf].
Qed.

Lemma split_sent_groups (gs : list (list string)) :
  Forall (fun g => Forall (fun t => is_word t = true) g /\ g <> []) gs ->
  flat_map split (map (fun g => join_sp g ++ nl) gs) = concat gs.
Proof.
  induction 1 as [|g gs (Hw & Hne) _ IH]; [reflexivity|].
  cbn [map flat_map concat]. rewrite IH.
  now rewrite split_join_nl.
Qed.

(** C1. For a batch string made only of command words (A, T, L, P, D,
    ALL in any case), each followed by the number of argument tokens it
    requires, the tokenizer does exactly what greedy grouping says: for
    each group in order it writes the group joined by single spaces and
    prints the matching notice, and nothing else (no skipping notice, no
    malformed notice, no further write).  No token is lost: the words of
    the lines written to the port, in order, are the groups laid end to
    end, and these are the tokens of the batch, the command words in upper
    case. *)
Theorem well_formed_batch_grouped (cmd_group : string) (w : world) :
  well_formed (split cmd_group) ->
  appended (tokenizer cmd_group) w =
    flat_map (fun g => [Tx (join_sp g ++ nl); Out ("Sent -> " ++ join_sp g ++ nl)])
             (greedy_group (split cmd_group))
  /\ subcommands cmd_group w =
       map (fun g => join_sp g ++ nl) (greedy_group (split cmd_group))
  /\ flat_map split (subcommands cmd_group w) =
       concat (greedy_group (split cmd_group))
  /\ Forall2 (fun x t => x = t \/ x = upper t)
             (concat (greedy_group (split cmd_group))) (split cmd_group).
Proof.
  intros Hwf.
  destruct (well_formed_groups _ Hwf (length (split cmd_group)) (le_n _))
    as (He & Ht).
  assert (Hsub : subcommands cmd_group w =
                 map (fun g => join_sp g ++ nl) (greedy_group (split cmd_group))).
  { unfold subcommands. rewrite appended_tokenizer, He. apply sent_groups. }
  split; [|split; [|split]].
  - rewrite appended_tokenizer, He. reflexivity.
  - exact Hsub.
  - rewrite Hsub. apply split_sent_groups.
    apply group_upto_words. apply split_words.
  - exact Ht.
Qed.

Lemma well_formed_batch_grouped_witness :
  appended (tokenizer "P 2 0 P 1 0 P 0 0") (fresh []) =
    flat_map (fun g => [Tx (join_sp g ++ nl); Out ("Sent -> " ++ join_sp g ++ nl)])
             [["P"; "2"; "0"]; ["P"; "1"; "0"]; ["P"; "0"; "0"]]
  /\ subcommands "P 2 0 P 1 0 P 0 0" (fresh []) =
       ["P 2 0" ++ nl; "P 1 0" ++ nl; "P 0 0" ++ nl]
  /\ flat_map split (subcommands "P 2 0 P 1 0 P 0 0" (fresh [])) =
       ["P"; "2"; "0"; "P"; "1"; "0"; "P"; "0"; "0"]
  /\ Forall2 (fun x t => x = t \/ x = upper t)
             ["P"; "2"; "0"; "P"; "1"; "0"; "P"; "0"; "0"]
             (split "P 2 0 P 1 0 P 0 0").
Proof.
  apply (well_formed_batch_grouped "P 2 0 P 1 0 P 0 0" (fresh [])).
  change (split "P 2 0 P 1 0 P 0 0")
    with ("P" :: ["2"; "0"] ++ "P" :: ["1"; "0"] ++ "P" :: ["0"; "0"] ++ [])%list.
  repeat (apply wf_cmd; [reflexivity|]). apply wf_nil.
Defined.

(** ** Where the cursor can stand *)

Lemma parsed_app (p q : list string) :
  parsed p -> parsed q -> parsed (p ++ q).
Proof.
  induction 1; intros Hq; simpl; auto;
    [apply parsed_all|apply parsed_d|apply parsed_two|apply parsed_skip]; auto.
Qed.

Lemma tokens_events_app (p q : list string) :
  parsed p ->
  tokens_events (p ++ q) = (tokens_events p ++ tokens_events q)%list.
Proof.
  induction 1 as [|t rest E _ IH|t a rest Eall E _ IH
                  |t a b rest Eall Eset Ed _ IH|t rest Eall Eset _ IH];
    [reflexivity|..]; cbn [app tokens_events].
  - rewrite E. cbn. now rewrite IH.
  - rewrite E. cbn. now rewrite IH.
  - apply String.eqb_neq in Eall, Ed. rewrite Eall, Eset, Ed.
    rewrite IH. reflexivity.
  - apply String.eqb_neq in Eall. rewrite Eall, Eset. now rewrite IH.
Qed.

Lemma firstn_add {A} (xs : list A) (i k : nat) :
  firstn (i + k) xs = (firstn i xs ++ firstn k (skipn i xs))%list.
Proof.
  revert xs; induction i as [|i IH]; intros [|x xs]; simpl; auto.
  - now rewrite firstn_nil.
  - now rewrite IH.
Qed.

(** An iteration that goes on has consumed one parsed group. *)
Lemma tok_body_group (tokens : list string) (i i' : nat) (w w' : world) :
  i < length tokens ->
  tok_body tokens i w = Ok (Continue i') w' ->
  exists g : list string,
    parsed g /\ i' = i + length g /\ i' <= length tokens /\
    firstn (length g) (skipn i tokens) = g /\
    w' = extend w (tokens_events g).
Proof.
  intros Hlt.
  destruct (skipn i tokens) as [|t rest] eqn:Hs.
  { apply (f_equal (@length string)) in Hs.
    rewrite length_skipn in Hs. simpl in Hs. lia. }
  destruct (skipn_cons_nth _ _ _ _ Hs) as (_ & _ & Hlen).
  rewrite (tok_body_view _ _ _ _ w Hs). cbv zeta.
  destruct (upper t =? "ALL") eqn:Eall.
  { intros H; inversion H; subst. exists [t].
    apply String.eqb_eq in Eall.
    repeat split; try (simpl; lia).
    - apply parsed_all; [exact Eall|constructor].
    - simpl. rewrite Eall. reflexivity. }
  apply String.eqb_neq in Eall.
  destruct (two_arg_or_d (upper t)) eqn:Eset.
  2:{ intros H; inversion H; subst. exists [t].
      repeat split; try (simpl; lia).
      - apply parsed_skip; [exact Eall|exact Eset|constructor].
      - simpl. apply String.eqb_neq in Eall. rewrite Eall, Eset. reflexivity. }
  destruct (upper t =? "D") eqn:Ed.
  - destruct rest as [|a r]; intros H; inversion H; subst.
    apply String.eqb_eq in Ed. exists [t; a].
    repeat split; try (simpl in *; lia).
    + apply parsed_d; [exact Eall|exact Ed|constructor].
    + simpl. rewrite Ed. reflexivity.
  - destruct rest as [|a [|b r]]; intros H; inversion H; subst.
    exists [t; a; b].
    repeat split; try (simpl in *; lia).
    + apply String.eqb_neq in Ed.
      apply parsed_two; [exact Eall|exact Eset|exact Ed|constructor].
    + simpl. apply String.eqb_neq in Eall. rewrite Eall, Eset, Ed.
      reflexivity.
Qed.

(** The tokens behind a cursor position were parsed to their end, and
    the world at that position is the starting world with their events. *)
Lemma runs_to_parsed (tokens : list string) (w0 : world) (i : nat) (w : world) :
  runs_to tokens w0 i w ->
  i <= length tokens /\ parsed (firstn i tokens) /\
  w = extend w0 (tokens_events (firstn i tokens)).
Proof.
  induction 1 as [|i w i' w' _ (Hle & Hp & Hw) Hlt Hb].
  - repeat split; [lia|constructor|now rewrite extend_nil].
  - destruct (tok_body_group _ _ _ _ _ Hlt Hb) as (g & Hg & Hi' & Hle' & Hf & Hw').
    subst i'. rewrite firstn_add, Hf.
    repeat split; [exact Hle'|now apply parsed_app|].
    rewrite tokens_events_app by exact Hp.
    rewrite Hw', Hw, extend_extend. reflexivity.
Qed.

Lemma split_at_cursor (tokens : list string) (i : nat) (t : string) :
  nth_error tokens i = Some t ->
  tokens = (firstn i tokens ++ t :: skipn (S i) tokens)%list.
Proof.
  intros Ht. destruct (nth_error_skipn_cons _ _ _ Ht) as (rest & Hs).
  destruct (skipn_cons_nth _ _ _ _ Hs) as (_ & Hr & _).
  rewrite Hr, <- Hs. symmetry. apply firstn_skipn.
Qed.

(** ** Malformed commands *)

Lemma malformed_events (t : string) (rest : list string) :
  (In (upper t) ["A"; "T"; "L"; "P"] /\ length rest < 2) \/
  (upper t = "D" /\ length rest < 1) ->
  tokens_events (t :: rest) = [Out (("Malformed " ++ upper t ++ " command") ++ nl)].
Proof.
  intros [(Hin & Hlen)|(E & Hlen)]; cbn [tokens_events].
  - assert (H : (upper t =? "ALL") = false /\ two_arg_or_d (upper t) = true
                /\ (upper t =? "D") = false).
    { simpl in Hin. destruct Hin as [H|[H|[H|[H|[]]]]]; rewrite <- H; auto. }
    destruct H as (-> & -> & ->).
    destruct rest as [|a [|b r]]; try reflexivity. simpl in Hlen. lia.
  - rewrite E. destruct rest; [reflexivity|simpl in Hlen; lia].
Qed.

Lemma sent_app (e1 e2 : list event) : sent (e1 ++ e2) = (sent e1 ++ sent e2)%list.
Proof. apply flat_map_app. Qed.

(** C2. Let the cursor reach, at position [i] and in world [w], an A,
    T, L or P token that is not followed by two more tokens, or a D token
    that is not followed by one.  Then that iteration prints the malformed
    notice and leaves the loop; the tokenizer ends in [w] plus that one
    notice, so nothing is sent for the token and nothing behind it is
    parsed or sent; [w] already holds every sub-command sent before, which
    are all the sub-commands of the batch; and the function goes on to the
    handshake wait from there. *)
Theorem malformed_command_aborts (decode : string -> string)
        (cmd_group : string) (w0 : world) (i : nat) (w : world) (t : string) :
  runs_to (split cmd_group) w0 i w ->
  nth_error (split cmd_group) i = Some t ->
  (In (upper t) ["A"; "T"; "L"; "P"] /\ ~ i + 2 < length (split cmd_group)) \/
  (upper t = "D" /\ ~ i + 1 < length (split cmd_group)) ->
  tok_body (split cmd_group) i w =
    Ok Break (extend w [Out (("Malformed " ++ upper t ++ " command") ++ nl)])
  /\ tokenizer cmd_group w0 =
       Ok tt (extend w [Out (("Malformed " ++ upper t ++ " command") ++ nl)])
  /\ (exists evs : list event,
         w = extend w0 evs /\ subcommands cmd_group w0 = sent evs)
  /\ (forall fuel : nat,
         send_batch_and_wait_done decode fuel cmd_group w0 =
         wait_loop decode fuel ""
           (extend w [Out (("Malformed " ++ upper t ++ " command") ++ nl);
                      Out "Waiting for DONE..."])).
Proof.
  intros Hrun Ht Hbad.
  destruct (runs_to_parsed _ _ _ _ Hrun) as (Hle & Hp & Hw).
  destruct (nth_error_skipn_cons _ _ _ Ht) as (rest & Hs).
  destruct (skipn_cons_nth _ _ _ _ Hs) as (_ & Hr & Hlen).
  assert (Hshort : (In (upper t) ["A"; "T"; "L"; "P"] /\ length rest < 2) \/
                   (upper t = "D" /\ length rest < 1)).
  { destruct Hbad as [(H1 & H2)|(H1 & H2)]; [left|right]; split; auto; lia. }
  pose proof (malformed_events t rest Hshort) as Hev.
  assert (Htok : tokenizer cmd_group w0 =
                 Ok tt (extend w [Out (("Malformed " ++ upper t ++ " command") ++ nl)])).
  { rewrite tokenizer_events.
    rewrite <- (firstn_skipn i (split cmd_group)) at 1.
    rewrite tokens_events_app by exact Hp.
    rewrite Hs, Hev, Hw, extend_extend. reflexivity. }
  repeat split.
  - rewrite (tok_body_view _ _ _ _ w Hs). cbv zeta.
    destruct Hshort as [(Hin & Hl)|(E & Hl)].
    + assert (H : (upper t =? "ALL") = false /\ two_arg_or_d (upper t) = true
                  /\ (upper t =? "D") = false).
      { simpl in Hin. destruct Hin as [H|[H|[H|[H|[]]]]]; rewrite <- H; auto. }
      destruct H as (-> & -> & ->).
      destruct rest as [|a [|b r]]; try reflexivity. simpl in Hl. lia.
    + rewrite E. destruct rest; [reflexivity|simpl in Hl; lia].
  - exact Htok.
  - exists (tokens_events (firstn i (split cmd_group))). split; [exact Hw|].
    unfold subcommands. rewrite appended_tokenizer.
    rewrite <- (firstn_skipn i (split cmd_group)) at 1.
    rewrite tokens_events_app by exact Hp.
    rewrite Hs, Hev, sent_app. simpl. now rewrite app_nil_r.
  - intros fuel. unfold send_batch_and_wait_done, bind.
    rewrite Htok. cbv zeta. run_io.
Qed.

Lemma malformed_command_aborts_witness :
  tok_body (split "a 1 2 t 3") 3
           (extend (fresh []) [Tx ("A 1 2" ++ nl); Out ("Sent -> A 1 2" ++ nl)]) =
    Ok Break
       (extend (extend (fresh []) [Tx ("A 1 2" ++ nl); Out ("Sent -> A 1 2" ++ nl)])
               [Out (("Malformed " ++ upper "t" ++ " command") ++ nl)])
  /\ tokenizer "a 1 2 t 3" (fresh []) =
       Ok tt
          (extend (extend (fresh []) [Tx ("A 1 2" ++ nl); Out ("Sent -> A 1 2" ++ nl)])
                  [Out (("Malformed " ++ upper "t" ++ " command") ++ nl)])
  /\ (exists evs : list event,
         extend (fresh []) [Tx ("A 1 2" ++ nl); Out ("Sent -> A 1 2" ++ nl)]
           = extend (fresh []) evs
         /\ subcommands "a 1 2 t 3" (fresh []) = sent evs)
  /\ (forall fuel : nat,
         send_batch_and_wait_done (fun raw => raw) fuel "a 1 2 t 3" (fresh []) =
         wait_loop (fun raw => raw) fuel ""
           (extend (extend (fresh []) [Tx ("A 1 2" ++ nl); Out ("Sent -> A 1 2" ++ nl)])
                   [Out (("Malformed " ++ upper "t" ++ " command") ++ nl);
                    Out "Waiting for DONE..."])).
Proof.
  apply (malformed_command_aborts (fun raw => raw) "a 1 2 t 3" (fresh []) 3
           (extend (fresh []) [Tx ("A 1 2" ++ nl); Out ("Sent -> A 1 2" ++ nl)])
           "t").
  - apply (runs_step _ _ 0 (fresh [])); [apply runs_start|simpl; lia|reflexivity].
  - reflexivity.
  - left. split; [simpl; auto|simpl; lia].
Defined.

(** ** Case of the command words *)

Lemma tokens_events_case (t t' : string) (rest : list string) :
  In (upper t) ["ALL"; "A"; "T"; "L"; "D"; "P"] ->
  upper t' = upper t ->
  tokens_events (t' :: rest) = tokens_events (t :: rest).
Proof.
  intros Hin E. cbn [tokens_events]. rewrite E.
  destruct (command_word_cases _ Hin) as [->|(-> & ->)]; reflexivity.
Qed.

Lemma sent_keywords (n : nat) :
  forall ts : list string,
    length ts <= n ->
    Forall (fun bytes => In (keyword bytes) ["ALL"; "A"; "T"; "L"; "D"; "P"])
           (sent (tokens_events ts)).
Proof.
  induction n as [|n IH]; intros [|t rest] Hlen; try (simpl in Hlen; lia);
    try constructor.
  simpl in Hlen. cbn [tokens_events].
  destruct (upper t =? "ALL").
  { rewrite sent_sent_events. constructor; [simpl; auto|apply IH; lia]. }
  destruct (two_arg_or_d (upper t)) eqn:Eset.
  2:{ apply IH. lia. }
  destruct (upper t =? "D").
  - destruct rest as [|a r]; [constructor|].
    rewrite sent_sent_events.
    constructor; [simpl; auto 6|apply IH; simpl in Hlen; lia].
  - destruct rest as [|a [|b r]]; [constructor|constructor|].
    rewrite sent_sent_events. constructor.
    + destruct (two_arg_or_d_cases _ Eset) as [E|[E|[E|[E|E]]]];
        rewrite E; simpl; auto 7.
    + apply IH. simpl in Hlen. lia.
Qed.

(** C6. Matching of command words ignores case, and what is sent is in
    upper case.  Take a batch and a token of it that the cursor reaches
    and that spells a command word in some case; write that token in any
    other case (its upper-case form stays the same).  The tokenizer then
    does exactly the same, so it sends the same sub-commands.  And for
    every batch, the first word of every sub-command that is sent is one
    of ALL, A, T, L, D, P, in upper case. *)
Theorem command_case_insensitive (cmd_group : string) (w1 : world) :
  (forall (cmd_group' : string) (i : nat) (t t' : string) (w0 w : world),
      runs_to (split cmd_group) w0 i w ->
      nth_error (split cmd_group) i = Some t ->
      In (upper t) ["ALL"; "A"; "T"; "L"; "D"; "P"] ->
      upper t' = upper t ->
      split cmd_group' = replace_at i t' (split cmd_group) ->
      tokenizer cmd_group' w1 = tokenizer cmd_group w1
      /\ subcommands cmd_group' w1 = subcommands cmd_group w1)
  /\ Forall (fun bytes => In (keyword bytes) ["ALL"; "A"; "T"; "L"; "D"; "P"])
            (subcommands cmd_group w1).
Proof.
  split.
  - intros cmd_group' i t t' w0 w Hrun Ht Hin E Hsplit.
    destruct (runs_to_parsed _ _ _ _ Hrun) as (_ & Hp & _).
    assert (Hev : tokens_events (split cmd_group') =
                  tokens_events (split cmd_group)).
    { rewrite Hsplit. unfold replace_at.
      rewrite (split_at_cursor _ _ _ Ht) at 3.
      rewrite !tokens_events_app by exact Hp.
      f_equal. now apply tokens_events_case. }
    split.
    + rewrite !tokenizer_events. now rewrite Hev.
    + unfold subcommands. rewrite !appended_tokenizer. now rewrite Hev.
  - unfold subcommands. rewrite appended_tokenizer.
    apply (sent_keywords (length (split cmd_group))). lia.
Qed.

Lemma command_case_insensitive_witness :
  tokenizer "P 1 5 aLl" (fresh []) = tokenizer "P 1 5 all" (fresh [])
  /\ subcommands "P 1 5 aLl" (fresh []) = subcommands "P 1 5 all" (fresh []).
Proof.
  apply (proj1 (command_case_insensitive "P 1 5 all" (fresh []))
               "P 1 5 aLl" 3 "all" "aLl" (fresh [])
               (extend (fresh []) [Tx ("P 1 5" ++ nl); Out ("Sent -> P 1 5" ++ nl)])).
  - apply (runs_step _ _ 0 (fresh [])); [apply runs_start|simpl; lia|reflexivity].
  - reflexivity.
  - simpl. auto.
  - reflexivity.
  - reflexivity.
Defined.

(** ** The handshake *)

Section Handshake.

Variable decode : string -> string.

Lemma contains_truthy (line : string) :
  contains "DONE" line = true -> truthy line = true.
Proof. destruct line; [discriminate|reflexivity]. Qed.

(** One read that does not bring DONE: the line is logged if it is not
    empty, and the loop goes on. *)
Lemma wait_loop_other (fuel : nat) (buffer : string) (w : world) :
  done_at decode w (rx w) = false ->
  exists buffer' : string,
    wait_loop decode (S fuel) buffer w =
    wait_loop decode fuel buffer'
      (mkWorld (incoming w) (S (rx w))
               (trace w ++ board_log (line_of decode (incoming w (rx w))))).
Proof.
  unfold done_at, line_of, board_log. intros Hd.
  cbn [wait_loop]. unfold bind, ser_readline. cbv zeta.
  destruct (truthy (strip (decode (incoming w (rx w))))).
  - rewrite Hd. eexists. run_io.
  - eexists. now rewrite app_nil_r.
Qed.

(** One read that brings DONE: the line is logged and the loop exits. *)
Lemma wait_loop_done (fuel : nat) (buffer : string) (w : world) :
  done_at decode w (rx w) = true ->
  wait_loop decode (S fuel) buffer w =
  Ok tt (mkWorld (incoming w) (S (rx w))
           (trace w ++ board_log (line_of decode (incoming w (rx w)))
              ++ [Out ("✔ DONE received." ++ nl)])).
Proof.
  unfold done_at, line_of, board_log. intros Hd.
  cbn [wait_loop]. unfold bind, ser_readline. cbv zeta.
  rewrite (contains_truthy _ Hd), Hd. run_io.
Qed.

(** With DONE first at the read [rx w + n], the loop exits after exactly
    [n + 1] reads, having logged each non-empty line on the way. *)
Lemma wait_loop_first_done (n : nat) :
  forall (fuel : nat) (buffer : string) (w : world),
    (forall j, j < n -> done_at decode w (rx w + j) = false) ->
    done_at decode w (rx w + n) = true ->
    n < fuel ->
    wait_loop decode fuel buffer w =
    Ok tt (mkWorld (incoming w) (rx w + S n)
             (trace w ++ handshake_log decode w (S n)
                ++ [Out ("✔ DONE received." ++ nl)])).
Proof.
  induction n as [|n IH]; intros fuel buffer w Hno Hd Hf;
    (destruct fuel as [|fuel]; [lia|]).
  - rewrite Nat.add_0_r in Hd. rewrite (wait_loop_done _ _ _ Hd).
    rewrite Nat.add_1_r. unfold handshake_log. simpl. now rewrite app_nil_r.
  - assert (H0 : done_at decode w (rx w) = false)
      by (rewrite <- (Nat.add_0_r (rx w)); apply Hno; lia).
    destruct (wait_loop_other fuel buffer w H0) as (buffer' & ->).
    rewrite (IH fuel buffer'); simpl rx; simpl incoming; simpl trace.
    + unfold handshake_log. cbn [rx incoming trace seq flat_map].
      rewrite <- !app_assoc. f_equal. f_equal. lia.
    + intros j Hj. specialize (Hno (S j) ltac:(lia)).
      unfold done_at in *. simpl. now rewrite <- Nat.add_succ_comm in Hno.
    + unfold done_at in *. simpl. now rewrite <- Nat.add_succ_comm in Hd.
    + lia.
Qed.

(** Without DONE the loop is still running at every bound. *)
Lemma wait_loop_never (fuel : nat) :
  forall (buffer : string) (w : world),
    (forall j, rx w <= j -> done_at decode w j = false) ->
    wait_loop decode fuel buffer w = Pending.
Proof.
  induction fuel as [|fuel IH]; intros buffer w Hno; [reflexivity|].
  destruct (wait_loop_other fuel buffer w (Hno _ (le_n _))) as (buffer' & ->).
  apply IH. simpl. intros j Hj. apply (Hno j). lia.
Qed.

(** A bound that does not reach the first DONE leaves the loop running. *)
Lemma wait_loop_short (fuel : nat) :
  forall (buffer : string) (w : world),
    (forall j, j < fuel -> done_at decode w (rx w + j) = false) ->
    wait_loop decode fuel buffer w = Pending.
Proof.
  induction fuel as [|fuel IH]; intros buffer w Hno; [reflexivity|].
  assert (H0 : done_at decode w (rx w) = false)
    by (rewrite <- (Nat.add_0_r (rx w)); apply Hno; lia).
  destruct (wait_loop_other fuel buffer w H0) as (buffer' & ->).
  apply IH. simpl. intros j Hj. specialize (Hno (S j) ltac:(lia)).
  unfold done_at in *. simpl. now rewrite <- Nat.add_succ_comm in Hno.
Qed.

(** The loop raises nothing, and when it exits the last read brought
    DONE and no earlier one did. *)
Lemma wait_loop_exit (fuel : nat) :
  forall (buffer : string) (w : world) (o : outcome unit),
    wait_loop decode fuel buffer w = o ->
    match o with
    | Ok _ w' =>
        incoming w' = incoming w /\ rx w < rx w' /\
        done_at decode w (rx w' - 1) = true /\
        forall j, rx w <= j < rx w' - 1 -> done_at decode w j = false
    | Raised _ _ => False
    | Pending => True
    end.
Proof.
  induction fuel as [|fuel IH]; intros buffer w o Ho.
  - simpl in Ho. now subst o.
  - destruct (done_at decode w (rx w)) eqn:Hd.
    + rewrite (wait_loop_done _ _ _ Hd) in Ho. subst o. simpl.
      rewrite Nat.sub_0_r. repeat split; auto; lia.
    + destruct (wait_loop_other fuel buffer w Hd) as (buffer' & E).
      rewrite E in Ho. specialize (IH _ _ _ Ho).
      destruct o as [[] w'|e w'|]; auto.
      simpl in IH. destruct IH as (Hi & Hlt & Hdone & Hbefore).
      repeat split; auto; [lia|].
      intros j Hj. destruct (Nat.eq_dec j (rx w)) as [->|Hne]; [exact Hd|].
      apply (Hbefore j). lia.
Qed.

(** The first read that brings DONE, when some read does. *)
Lemma first_done (w : world) (n : nat) :
  forall p : nat,
    done_at decode w (p + n) = true ->
    exists k, p <= k <= p + n /\ done_at decode w k = true /\
              forall j, p <= j < k -> done_at decode w j = false.
Proof.
  induction n as [|n IH]; intros p Hd.
  - exists p. rewrite Nat.add_0_r in Hd. repeat split; auto; lia.
  - destruct (done_at decode w p) eqn:Hp.
    + exists p. repeat split; auto; lia.
    + destruct (IH (S p)) as (k & Hk & Hdk & Hbefore).
      { now rewrite Nat.add_succ_comm. }
      exists k. repeat split; auto; try lia.
      intros j Hj. destruct (Nat.eq_dec j p) as [->|Hne]; [exact Hp|].
      apply Hbefore. lia.
Qed.

(** The whole function, up to the handshake. *)
Lemma send_batch_unfold (fuel : nat) (cmd_group : string) (w : world) :
  send_batch_and_wait_done decode fuel cmd_group w =
  wait_loop decode fuel ""
    (extend w (tokens_events (split cmd_group) ++ [Out "Waiting for DONE..."])).
Proof.
  unfold send_batch_and_wait_done, bind. rewrite tokenizer_events.
  cbv zeta. run_io.
Qed.

End Handshake.

(** C4. Whatever batch is sent and whatever the port delivers, if some
    read at or after the current one gives a line with DONE in it (such a
    line is not empty), then there is a first such read [k], and the
    function returns as soon as the bound on the loop allows [k] to be
    read, and not before: it has then made the reads up to [k] and no
    more, has logged every non-empty line among them in order, the line
    with DONE last, and has printed the DONE notice once, however many
    lines came before. *)
Theorem handshake_returns_on_done (decode : string -> string)
        (cmd_group : string) (w : world) (j : nat) :
  rx w <= j ->
  done_at decode w j = true ->
  exists k : nat,
    rx w <= k <= j
    /\ done_at decode w k = true
    /\ (forall i, rx w <= i < k -> done_at decode w i = false)
    /\ (forall fuel : nat,
           k - rx w < fuel ->
           send_batch_and_wait_done decode fuel cmd_group w =
           Ok tt (mkWorld (incoming w) (S k)
                    (trace w ++ tokens_events (split cmd_group)
                       ++ [Out "Waiting for DONE..."]
                       ++ handshake_log decode w (S k - rx w)
                       ++ [Out ("✔ DONE received." ++ nl)])))
    /\ (forall fuel : nat,
           fuel <= k - rx w ->
           send_batch_and_wait_done decode fuel cmd_group w = Pending).
Proof.
  intros Hle Hd.
  destruct (first_done decode w (j - rx w) (rx w)) as (k & Hk & Hdk & Hbefore).
  { now replace (rx w + (j - rx w)) with j by lia. }
  exists k. split; [lia|]. split; [exact Hdk|]. split; [exact Hbefore|]. split.
  - intros fuel Hf. rewrite send_batch_unfold.
    rewrite (wait_loop_first_done decode (k - rx w)).
    + cbn [rx incoming trace extend].
      replace (rx w + S (k - rx w)) with (S k) by lia.
      replace (S (k - rx w)) with (S k - rx w) by lia.
      f_equal. f_equal. rewrite <- !app_assoc. reflexivity.
    + intros i Hi. apply (Hbefore (rx w + i)). simpl. lia.
    + simpl. now replace (rx w + (k - rx w)) with k by lia.
    + exact Hf.
  - intros fuel Hf. rewrite send_batch_unfold.
    apply wait_loop_short. intros i Hi.
    apply (Hbefore (rx w + i)). simpl. lia.
Qed.

Lemma handshake_returns_on_done_witness :
  exists k : nat,
    0 <= k <= 3
    /\ done_at (fun raw => raw) (fresh [""; "ok"; " xDONEy "; "DONE"]) k = true
    /\ (forall i, 0 <= i < k ->
          done_at (fun raw => raw) (fresh [""; "ok"; " xDONEy "; "DONE"]) i = false)
    /\ (forall fuel : nat,
           k - 0 < fuel ->
           send_batch_and_wait_done (fun raw => raw) fuel "P 2 0"
             (fresh [""; "ok"; " xDONEy "; "DONE"]) =
           Ok tt (mkWorld (incoming (fresh [""; "ok"; " xDONEy "; "DONE"])) (S k)
                    ([] ++ tokens_events (split "P 2 0")
                       ++ [Out "Waiting for DONE..."]
                       ++ handshake_log (fun raw => raw)
                            (fresh [""; "ok"; " xDONEy "; "DONE"]) (S k - 0)
                       ++ [Out ("✔ DONE received." ++ nl)])))
    /\ (forall fuel : nat,
           fuel <= k - 0 ->
           send_batch_and_wait_done (fun raw => raw) fuel "P 2 0"
             (fresh [""; "ok"; " xDONEy "; "DONE"]) = Pending).
Proof.
  apply (handshake_returns_on_done (fun raw => raw) "P 2 0"
           (fresh [""; "ok"; " xDONEy "; "DONE"]) 3).
  - simpl. lia.
  - reflexivity.
Defined.

(** The run of the handshake on that device: the empty line is read and
    not logged, and the fourth line is never read. *)
Example handshake_on_third_line :
  send_batch_and_wait_done (fun raw => raw) 3 "P 2 0"
    (fresh [""; "ok"; " xDONEy "; "DONE"]) =
  Ok tt (mkWorld (incoming (fresh [""; "ok"; " xDONEy "; "DONE"])) 3
           [Tx ("P 2 0" ++ nl); Out ("Sent -> P 2 0" ++ nl);
            Out "Waiting for DONE...";
            Out (nl ++ "[Board] ok" ++ nl);
            Out (nl ++ "[Board] xDONEy" ++ nl);
            Out ("✔ DONE received." ++ nl)]).
Proof. reflexivity. Qed.

(** C5. The handshake wait ends only on DONE.  The function raises
    nothing of its own, and whenever it returns, the last read it made gave
    a line with DONE in it; and when no read from the current one on gives
    such a line, the function has not returned at any bound on the loop:
    the loop has no other way out. *)
Theorem handshake_waits_for_done (decode : string -> string)
        (cmd_group : string) (w : world) :
  (forall (fuel : nat) (w' : world),
      send_batch_and_wait_done decode fuel cmd_group w = Ok tt w' ->
      rx w < rx w' /\ done_at decode w (rx w' - 1) = true)
  /\ (forall (fuel : nat) (e : exn) (w' : world),
         send_batch_and_wait_done decode fuel cmd_group w <> Raised e w')
  /\ ((forall j, rx w <= j -> done_at decode w j = false) ->
      forall fuel : nat,
        send_batch_and_wait_done decode fuel cmd_group w = Pending).
Proof.
  split; [|split].
  - intros fuel w' H. rewrite send_batch_unfold in H.
    apply (wait_loop_exit decode) in H. simpl in H. tauto.
  - intros fuel e w' H. rewrite send_batch_unfold in H.
    apply (wait_loop_exit decode) in H. exact H.
  - intros Hno fuel. rewrite send_batch_unfold.
    apply wait_loop_never. exact Hno.
Qed.

Lemma handshake_waits_for_done_witness :
  send_batch_and_wait_done (fun raw => raw) 1000 "P 2 0"
    (fresh ["ok"; "done"; "D O N E"]) = Pending.
Proof.
  apply (handshake_waits_for_done (fun raw => raw) "P 2 0"
           (fresh ["ok"; "done"; "D O N E"])).
  intros [|[|[|[|j]]]] _; reflexivity.
Defined.

(** ** Exit paths of the driver *)

Lemma for_each_print {A} (text : A -> string) (xs : list A) :
  forall w : world,
    for_each xs (fun x => print (text x)) w =
    Ok tt (extend w (map (fun x => Out (text x ++ nl)) xs)).
Proof.
  induction xs as [|x xs IH]; intros w; cbn [for_each map].
  - unfold ret. now rewrite extend_nil.
  - unfold bind at 1. unfold print at 1. rewrite emit_extend.
    rewrite IH, extend_extend. reflexivity.
Qed.

Lemma list_ports_events (h : host) (w : world) :
  list_ports h w = Ok tt (extend w (map Out (ports_listing h))).
Proof.
  unfold list_ports, ports_listing. destruct (comports h) as [|p ps].
  - run_io.
  - unfold bind at 1. unfold print at 1. rewrite emit_extend.
    rewrite for_each_print, extend_extend. cbn [map app].
    now rewrite map_map.
Qed.

(** C8. With [--list], [main] prints the port listing and exits with
    code 0: nothing but console output is added to the trace, so no port
    is opened, nothing is sent and nothing is read.  With [--port], when
    opening the port fails, [main] prints the error notice with the text
    of the failure and exits with code 1, again with nothing else done. *)
Theorem main_exit_codes (decode : string -> string) (fuel : nat) (h : host)
        (a : args) (w : world) :
  (chosen a = ListPorts ->
   main decode fuel h a w =
     Raised (SystemExit 0) (extend w (map Out (ports_listing h)))
   /\ exit_code (main decode fuel h a w) = Some 0%Z)
  /\ (forall port msg : string,
         chosen a = UsePort port ->
         serial_open h port (baud a) = Some msg ->
         main decode fuel h a w =
           Raised (SystemExit 1)
                  (extend w [Out (("Error opening " ++ port ++ ": " ++ msg) ++ nl)])
         /\ exit_code (main decode fuel h a w) = Some 1%Z).
Proof.
  split.
  - intros Hl.
    assert (E : main decode fuel h a w =
                Raised (SystemExit 0) (extend w (map Out (ports_listing h)))).
    { unfold main. rewrite Hl. unfold bind.
      now rewrite list_ports_events. }
    rewrite E. split; reflexivity.
  - intros port msg Hp Ho.
    assert (E : main decode fuel h a w =
                Raised (SystemExit 1)
                  (extend w [Out (("Error opening " ++ port ++ ": " ++ msg) ++ nl)])).
    { unfold main. rewrite Hp, Ho. unfold bind. run_io. }
    rewrite E. split; reflexivity.
Qed.

Lemma main_exit_codes_witness :
  (main (fun raw => raw) 3
        (mkHost [mkPort "COM1" "usb"] (fun _ _ => Some "busy"))
        (mkArgs ListPorts 115200 (1 # 1)) (fresh []) =
     Raised (SystemExit 0)
            (extend (fresh [])
               [Out ("Available serial ports:" ++ nl); Out ("  COM1 - usb" ++ nl)])
   /\ exit_code
        (main (fun raw => raw) 3
           (mkHost [mkPort "COM1" "usb"] (fun _ _ => Some "busy"))
           (mkArgs ListPorts 115200 (1 # 1)) (fresh [])) = Some 0%Z)
  /\ (main (fun raw => raw) 3
           (mkHost [mkPort "COM1" "usb"] (fun _ _ => Some "busy"))
           (mkArgs (UsePort "COM9") 115200 (1 # 1)) (fresh []) =
        Raised (SystemExit 1)
               (extend (fresh []) [Out ("Error opening COM9: busy" ++ nl)])
      /\ exit_code
           (main (fun raw => raw) 3
              (mkHost [mkPort "COM1" "usb"] (fun _ _ => Some "busy"))
              (mkArgs (UsePort "COM9") 115200 (1 # 1)) (fresh [])) = Some 1%Z).
Proof.
  split.
  - apply (proj1 (main_exit_codes (fun raw => raw) 3
                    (mkHost [mkPort "COM1" "usb"] (fun _ _ => Some "busy"))
                    (mkArgs ListPorts 115200 (1 # 1)) (fresh []))).
    reflexivity.
  - apply (proj2 (main_exit_codes (fun raw => raw) 3
                    (mkHost [mkPort "COM1" "usb"] (fun _ _ => Some "busy"))
                    (mkArgs (UsePort "COM9") 115200 (1 # 1)) (fresh []))
                 "COM9" "busy"); reflexivity.
Defined.

Lemma tokenizer_terminates_witness :
  (exists w2 : world,
      tok_body (split "P 2 0 d") 0 (fresh []) = Ok Break w2 \/
      exists d, (d = 1 \/ d = 2 \/ d = 3) /\
                0 + d <= length (split "P 2 0 d") /\
                tok_body (split "P 2 0 d") 0 (fresh []) = Ok (Continue (0 + d)) w2)
  /\ tok_loop 7 (split "P 2 0 d") 0 (fresh []) = tokenizer "P 2 0 d" (fresh []).
Proof.
  destruct (tokenizer_terminates "P 2 0 d" (fresh [])) as (Hstep & _ & Hfuel).
  split.
  - apply (Hstep 0 (fresh [])). simpl. lia.
  - apply (Hfuel 7). simpl. lia.
Defined.

(** ** The code on the batches of the spec *)

Example batch_three_p (w : world) :
  subcommands "P 2 0 P 1 0 P 0 0" w = ["P 2 0" ++ nl; "P 1 0" ++ nl; "P 0 0" ++ nl].
Proof. unfold subcommands. rewrite appended_tokenizer. reflexivity. Qed.

Example batch_all (w : world) :
  appended (tokenizer "ALL") w = [Tx ("ALL" ++ nl); Out ("Sent -> ALL" ++ nl)].
Proof. rewrite appended_tokenizer. reflexivity. Qed.

Example batch_d_alone (w : world) :
  appended (tokenizer "D") w = [Out ("Malformed D command" ++ nl)].
Proof. rewrite appended_tokenizer. reflexivity. Qed.

Example batch_p_short (w : world) :
  appended (tokenizer "P 2") w = [Out ("Malformed P command" ++ nl)].
Proof. rewrite appended_tokenizer. reflexivity. Qed.

(** A token in argument position is sent as written, also when it spells
    a command word: its case is kept. *)
Example argument_case_kept (w : world) :
  subcommands "P p 1" w = ["P p 1" ++ nl]
  /\ subcommands "P P 1" w = ["P P 1" ++ nl].
Proof. unfold subcommands. rewrite !appended_tokenizer. split; reflexivity. Qed.

(** * Further properties of the code *)

(** ** Batches without commands *)

Lemma split_from_nonempty (s cur : string) :
  (cur =? "") = false -> split_from cur s <> [].
Proof.
  revert cur; induction s as [|c s IH]; intros cur Hcur; simpl.
  - rewrite Hcur. discriminate.
  - destruct (isspace c).
    + rewrite Hcur. discriminate.
    + apply IH. destruct cur; reflexivity.
Qed.

Lemma split_blank (s : string) : split s = [] <-> all_space s = true.
Proof.
  unfold split. induction s as [|c s IH]; simpl.
  - tauto.
  - destruct (isspace c); simpl.
    + exact IH.
    + split; [|discriminate].
      intros H. now apply split_from_nonempty in H.
Qed.

Lemma tokens_events_nil (ts : list string) :
  tokens_events ts = [] -> ts = [].
Proof.
  destruct ts as [|t rest]; [reflexivity|]. cbn [tokens_events].
  destruct (upper t =? "ALL"); [discriminate|].
  destruct (two_arg_or_d (upper t)); [|discriminate].
  destruct (upper t =? "D").
  - destruct rest; discriminate.
  - destruct rest as [|a [|b r]]; discriminate.
Qed.

(** X1. The tokenizer does nothing at all (no write, no notice) exactly
    when the batch string is empty or white space only; and for such a
    batch the function still enters the handshake wait, with nothing sent
    before it. *)
Theorem blank_batch_sends_nothing (decode : string -> string)
        (cmd_group : string) (w : world) :
  (appended (tokenizer cmd_group) w = [] <-> all_space cmd_group = true)
  /\ (all_space cmd_group = true ->
      forall fuel : nat,
        send_batch_and_wait_done decode fuel cmd_group w =
        wait_loop decode fuel "" (extend w [Out "Waiting for DONE..."])).
Proof.
  rewrite appended_tokenizer. split.
  - rewrite <- split_blank. split.
    + apply tokens_events_nil.
    + intros ->. reflexivity.
  - intros Hb fuel. rewrite send_batch_unfold.
    apply split_blank in Hb. now rewrite Hb.
Qed.

Lemma blank_batch_sends_nothing_witness :
  send_batch_and_wait_done (fun raw => raw) 5 "   " (fresh ["DONE"]) =
  wait_loop (fun raw => raw) 5 "" (extend (fresh ["DONE"]) [Out "Waiting for DONE..."]).
Proof.
  apply (proj2 (blank_batch_sends_nothing (fun raw => raw) "   " (fresh ["DONE"]))).
  reflexivity.
Defined.

Lemma tokens_events_unknown (ts : list string) :
  Forall unknown_token ts ->
  tokens_events ts =
  map (fun t => Out (("Skipping unknown token: " ++ t) ++ nl)) ts.
Proof.
  induction 1 as [|t ts (Hall & Hset) _ IH]; [reflexivity|].
  cbn [tokens_events map]. apply String.eqb_neq in Hall.
  now rewrite Hall, Hset, IH.
Qed.

(** X2. A batch in which no token is a command word writes nothing to
    the port: the tokenizer prints one skipping notice per token, each
    with the token as written, in order, and that is all. *)
Theorem no_command_word_no_write (cmd_group : string) (w : world) :
  Forall unknown_token (split cmd_group) ->
  appended (tokenizer cmd_group) w =
    map (fun t => Out ("Skipping unknown token: " ++ t ++ nl)) (split cmd_group)
  /\ subcommands cmd_group w = [].
Proof.
  intros H. unfold subcommands. rewrite appended_tokenizer.
  rewrite (tokens_events_unknown _ H). split; [reflexivity|].
  clear H. induction (split cmd_group) as [|t ts IH]; [reflexivity|exact IH].
Qed.

Lemma no_command_word_no_write_witness :
  appended (tokenizer "go 12 home") (fresh []) =
    map (fun t => Out ("Skipping unknown token: " ++ t ++ nl)) (split "go 12 home")
  /\ subcommands "go 12 home" (fresh []) = [].
Proof.
  apply (no_command_word_no_write "go 12 home" (fresh [])).
  repeat constructor; vm_compute; discriminate.
Defined.

(** ** The handshake loop *)

(** X3. The text accumulated in [buffer] has no effect: started with any
    two buffers the wait loop has the same outcome (same reads, same
    notices, same exit). *)
Theorem wait_loop_ignores_buffer (decode : string -> string) (fuel : nat)
        (buffer1 buffer2 : string) (w : world) :
  wait_loop decode fuel buffer1 w = wait_loop decode fuel buffer2 w.
Proof.
  revert buffer1 buffer2 w.
  induction fuel as [|fuel IH]; intros buffer1 buffer2 w; [reflexivity|].
  cbn [wait_loop]. unfold bind, ser_readline. cbv zeta.
  destruct (truthy (strip (decode (incoming w (rx w))))); [|apply IH].
  unfold print at 1 3. rewrite !emit_extend.
  destruct (contains "DONE" (strip (decode (incoming w (rx w)))));
    [reflexivity|apply IH].
Qed.

Lemma sent_board_log (line : string) : sent (board_log line) = [].
Proof. unfold board_log. destruct (truthy line); reflexivity. Qed.

(** The wait loop writes nothing to the port. *)
Lemma wait_loop_sends_nothing (decode : string -> string) (fuel : nat) :
  forall (buffer : string) (w w' : world),
    wait_loop decode fuel buffer w = Ok tt w' ->
    sent (trace w') = sent (trace w).
Proof.
  induction fuel as [|fuel IH]; intros buffer w w' H; [discriminate|].
  destruct (done_at decode w (rx w)) eqn:Hd.
  - rewrite (wait_loop_done _ _ _ _ Hd) in H. inversion H; subst. simpl.
    rewrite !sent_app, sent_board_log. simpl. now rewrite app_nil_r.
  - destruct (wait_loop_other decode fuel buffer w Hd) as (buffer' & E).
    rewrite E in H. apply IH in H. rewrite H. simpl.
    rewrite sent_app, sent_board_log. now rewrite app_nil_r.
Qed.

(** X4. Whenever the function returns, the bytes it has written to the
    port are exactly the sub-commands of the tokenizer: nothing is written
    during the handshake wait (no resend, no reply to the board), and at
    least one read was made. *)
Theorem function_writes_only_subcommands (decode : string -> string)
        (fuel : nat) (cmd_group : string) (w w' : world) :
  send_batch_and_wait_done decode fuel cmd_group w = Ok tt w' ->
  sent (trace w') = (sent (trace w) ++ subcommands cmd_group w)%list
  /\ rx w < rx w' /\ incoming w' = incoming w.
Proof.
  intros H. rewrite send_batch_unfold in H.
  pose proof (wait_loop_sends_nothing _ _ _ _ _ H) as Hs.
  pose proof (wait_loop_exit decode _ _ _ _ H) as Hx. simpl in Hx.
  destruct Hx as (Hi & Hlt & _). repeat split; auto.
  rewrite Hs. simpl. unfold subcommands. rewrite appended_tokenizer.
  rewrite !sent_app. simpl. now rewrite app_nil_r.
Qed.

Lemma function_writes_only_subcommands_witness :
  sent (trace (mkWorld (incoming (fresh ["busy"; "DONE"])) 2
                 [Tx ("D 1" ++ nl); Out ("Sent -> D 1" ++ nl);
                  Out "Waiting for DONE...";
                  Out (nl ++ "[Board] busy" ++ nl);
                  Out (nl ++ "[Board] DONE" ++ nl);
                  Out ("✔ DONE received." ++ nl)])) =
    (sent (trace (fresh ["busy"; "DONE"]))
       ++ subcommands "d 1" (fresh ["busy"; "DONE"]))%list
  /\ rx (fresh ["busy"; "DONE"]) <
       rx (mkWorld (incoming (fresh ["busy"; "DONE"])) 2
                 [Tx ("D 1" ++ nl); Out ("Sent -> D 1" ++ nl);
                  Out "Waiting for DONE...";
                  Out (nl ++ "[Board] busy" ++ nl);
                  Out (nl ++ "[Board] DONE" ++ nl);
                  Out ("✔ DONE received." ++ nl)])
  /\ incoming (mkWorld (incoming (fresh ["busy"; "DONE"])) 2
                 [Tx ("D 1" ++ nl); Out ("Sent -> D 1" ++ nl);
                  Out "Waiting for DONE...";
                  Out (nl ++ "[Board] busy" ++ nl);
                  Out (nl ++ "[Board] DONE" ++ nl);
                  Out ("✔ DONE received." ++ nl)])
      = incoming (fresh ["busy"; "DONE"]).
Proof.
  apply (function_writes_only_subcommands (fun raw => raw) 4 "d 1"
           (fresh ["busy"; "DONE"])
           (mkWorld (incoming (fresh ["busy"; "DONE"])) 2
                 [Tx ("D 1" ++ nl); Out ("Sent -> D 1" ++ nl);
                  Out "Waiting for DONE...";
                  Out (nl ++ "[Board] busy" ++ nl);
                  Out (nl ++ "[Board] DONE" ++ nl);
                  Out ("✔ DONE received." ++ nl)])).
  reflexivity.
Defined.

(** ** What goes over the wire *)

(** Induction on a token list along the tokenizer: the tail, and every
    list no longer than the tail, may be assumed. *)
Lemma tokens_ind (P : list string -> Prop) :
  P [] ->
  (forall (t : string) (rest : list string),
      (forall r : list string, length r <= length rest -> P r) ->
      P (t :: rest)) ->
  forall ts : list string, P ts.
Proof.
  intros Hnil Hcons.
  assert (H : forall n ts, length ts <= n -> P ts).
  { induction n as [|n IH]; intros [|t rest] Hlen; auto.
    - simpl in Hlen. lia.
    - apply Hcons. intros r Hr. apply IH. simpl in Hlen. lia. }
  intros ts. apply (H (length ts)). lia.
Qed.

Lemma wire_groups_sent (ts : list string) :
  sent (tokens_events ts) = map (fun g => join_sp g ++ nl) (wire_groups ts).
Proof.
  induction ts as [|t rest IH] using tokens_ind; [reflexivity|].
  cbn [tokens_events wire_groups].
  destruct (upper t =? "ALL").
  { rewrite sent_sent_events. cbn [map]. now rewrite IH. }
  destruct (two_arg_or_d (upper t)).
  2:{ apply IH. lia. }
  destruct (upper t =? "D").
  - destruct rest as [|a r]; [reflexivity|].
    rewrite sent_sent_events. cbn [map]. rewrite IH by (simpl; lia).
    reflexivity.
  - destruct rest as [|a [|b r]]; try reflexivity.
    rewrite sent_sent_events. cbn [map]. rewrite IH by (simpl; lia).
    reflexivity.
Qed.

Lemma subcommands_wire_groups (cmd_group : string) (w : world) :
  subcommands cmd_group w =
  map (fun g => join_sp g ++ nl) (wire_groups (split cmd_group)).
Proof.
  unfold subcommands. rewrite appended_tokenizer. apply wire_groups_sent.
Qed.

Lemma wire_groups_complete (ts : list string) :
  Forall (fun t => is_word t = true) ts ->
  Forall complete_command (wire_groups ts).
Proof.
  induction ts as [|t rest IH] using tokens_ind; intros Hw; [constructor|].
  inversion Hw as [|? ? _ Hrest]; subst.
  cbn [wire_groups].
  destruct (upper t =? "ALL").
  { constructor; [|now apply IH].
    exists "ALL", []. repeat split; constructor. }
  destruct (two_arg_or_d (upper t)) eqn:Eset; [|now apply IH].
  destruct (upper t =? "D") eqn:Ed.
  - destruct rest as [|a r]; [constructor|].
    inversion Hrest as [|? ? Ha Hr]; subst.
    constructor; [|apply IH; [simpl; lia|exact Hr]].
    exists "D", [a]. repeat split. constructor; [exact Ha|constructor].
  - destruct rest as [|a [|b r]]; try constructor.
    + inversion Hrest as [|? ? Ha Hr]; subst.
      inversion Hr as [|? ? Hb _]; subst.
      exists (upper t), [a; b].
      destruct (two_arg_or_d_cases _ Eset) as [E|[E|[E|[E|E]]]];
        rewrite E in *; try discriminate;
        (repeat split; repeat constructor; assumption).
    + inversion Hrest as [|? ? _ Hr]; subst.
      inversion Hr as [|? ? _ Hr']; subst.
      apply IH; [simpl; lia|exact Hr'].
Qed.

Lemma complete_command_words (g : list string) :
  complete_command g ->
  Forall (fun t => is_word t = true) g /\ g <> [].
Proof.
  intros (k & args & -> & Har & _ & Hw). split; [|discriminate].
  constructor; [exact (arity_word _ _ Har)|exact Hw].
Qed.

(** X5. Every line the tokenizer writes to the port is a complete
    command: a command word in upper case followed by exactly the number of
    arguments it requires (none for ALL, one for D, two for A, T, L, P),
    the words separated by single spaces and followed by one newline, with
    no other white space, so that splitting the line gives its words back.
    A command that lacks arguments is never written. *)
Theorem written_lines_are_commands (cmd_group : string) (w : world) :
  Forall (fun bytes =>
            exists g : list string,
              complete_command g /\ bytes = join_sp g ++ nl /\ split bytes = g)
         (subcommands cmd_group w).
Proof.
  rewrite subcommands_wire_groups. apply Forall_map.
  pose proof (wire_groups_complete _ (split_words cmd_group)) as H.
  revert H. apply Forall_impl. intros g Hg. exists g.
  destruct (complete_command_words _ Hg) as (Hw & Hne).
  repeat split; auto. now apply split_join_nl.
Qed.

Lemma wire_groups_picked (ts : list string) :
  picked_from (concat (wire_groups ts)) ts.
Proof.
  induction ts as [|t rest IH] using tokens_ind; [constructor|].
  cbn [wire_groups].
  destruct (upper t =? "ALL") eqn:Eall.
  { apply String.eqb_eq in Eall. cbn [concat app].
    apply picked_keep; [now right|]. apply IH. lia. }
  destruct (two_arg_or_d (upper t)).
  2:{ apply picked_skip. apply IH. lia. }
  destruct (upper t =? "D") eqn:Ed.
  - destruct rest as [|a r]; [constructor|].
    apply String.eqb_eq in Ed. cbn [concat app].
    apply picked_keep; [now right|].
    apply picked_keep; [now left|]. apply IH. simpl. lia.
  - destruct rest as [|a [|b r]]; [constructor|constructor|].
    cbn [concat app].
    apply picked_keep; [now right|].
    apply picked_keep; [now left|].
    apply picked_keep; [now left|]. apply IH. simpl. lia.
Qed.

(** X6. Nothing is invented and nothing is reordered: for every batch,
    the words of the lines written to the port, read in order, are tokens
    of the batch picked in order, each taken as written or in upper
    case. *)
Theorem written_words_come_from_batch (cmd_group : string) (w : world) :
  picked_from (flat_map split (subcommands cmd_group w)) (split cmd_group).
Proof.
  rewrite subcommands_wire_groups.
  rewrite split_sent_groups.
  - apply wire_groups_picked.
  - pose proof (wire_groups_complete _ (split_words cmd_group)) as H.
    revert H. apply Forall_impl. exact complete_command_words.
Qed.

(** ** Sending the written lines again *)

Lemma split_line_app (g : list string) (s : string) :
  Forall (fun t => is_word t = true) g -> g <> [] ->
  split (join_sp g ++ nl ++ s) = (g ++ split s)%list.
Proof.
  unfold split. induction 1 as [|t ts Ht Hts IH]; intros Hnil; [congruence|].
  destruct (is_word_inv _ Ht) as (Hne & Hns).
  destruct ts as [|t2 ts].
  - simpl join_sp. rewrite split_from_run by exact Hns. simpl. now rewrite Hne.
  - change (join_sp (t :: t2 :: ts)) with (t ++ " " ++ join_sp (t2 :: ts)).
    rewrite !append_append. rewrite split_from_run by exact Hns.
    simpl. rewrite Hne. cbn [app]. f_equal. apply IH. discriminate.
Qed.

Lemma concat_lines_cons (line : string) (lines : list string) :
  String.concat "" (line :: lines) = line ++ String.concat "" lines.
Proof.
  destruct lines; simpl; [now rewrite append_empty_r|reflexivity].
Qed.

Lemma split_concat_lines (gs : list (list string)) :
  Forall complete_command gs ->
  split (String.concat "" (map (fun g => join_sp g ++ nl) gs)) = concat gs.
Proof.
  induction 1 as [|g gs Hg _ IH]; [reflexivity|].
  destruct (complete_command_words _ Hg) as (Hw & Hne).
  cbn [map]. rewrite concat_lines_cons, append_append.
  rewrite split_line_app by assumption. cbn [concat]. now rewrite IH.
Qed.

Lemma wire_groups_concat (gs : list (list string)) :
  Forall complete_command gs -> wire_groups (concat gs) = gs.
Proof.
  induction 1 as [|g gs (k & args & -> & Har & Hup & _) _ IH]; [reflexivity|].
  cbn [concat]. rewrite <- app_comm_cons. cbn [wire_groups]. rewrite Hup.
  destruct (arity_cases _ _ Har) as [(E & Hn)|[(Eall & E & Hn)|(Eall & Ed & Eset & Hn)]].
  - destruct args; [|discriminate]. rewrite E. cbn. now rewrite IH.
  - destruct args as [|a [|? ?]]; try discriminate. rewrite E. cbn.
    now rewrite IH.
  - destruct args as [|a [|b [|? ?]]]; try discriminate.
    rewrite Eall, Eset, Ed. cbn [app]. now rewrite IH.
Qed.

(** X7. What the tokenizer writes is in normal form: take the lines it
    wrote for a batch, put them one after the other and give that text to
    the tokenizer as a batch; it writes the same lines again. *)
Theorem written_lines_resend (cmd_group : string) (w w' : world) :
  subcommands (String.concat "" (subcommands cmd_group w)) w' =
  subcommands cmd_group w.
Proof.
  rewrite (subcommands_wire_groups cmd_group).
  pose proof (wire_groups_complete _ (split_words cmd_group)) as H.
  rewrite subcommands_wire_groups.
  rewrite split_concat_lines by exact H.
  now rewrite wire_groups_concat.
Qed.

(** ** Batches put together *)

Lemma split_from_space_app (s1 s2 : string) :
  forall cur : string,
    split_from cur (s1 ++ " " ++ s2) = (split_from cur s1 ++ split s2)%list.
Proof.
  unfold split. induction s1 as [|c s1 IH]; intros cur; simpl.
  - destruct (cur =? ""); reflexivity.
  - destruct (isspace c); [|apply IH].
    destruct (cur =? ""); [apply IH|].
    cbn [app]. f_equal. apply IH.
Qed.

Lemma split_space_app (s1 s2 : string) :
  split (s1 ++ " " ++ s2) = (split s1 ++ split s2)%list.
Proof. apply split_from_space_app. Qed.

(** X8. Two batches written in one string, the second behind the first
    with a space between, are tokenized like the first and then the second,
    provided the first is parsed to its end (its last command has all its
    arguments): the combined batch makes the tokenizer do what two runs in
    a row do, and sends the sub-commands of the first followed by those of
    the second. *)
Theorem batches_concatenate (batch1 batch2 : string) (w : world) :
  parsed (split batch1) ->
  tokenizer (batch1 ++ " " ++ batch2) w =
    (tokenizer batch1 ;;; tokenizer batch2) w
  /\ subcommands (batch1 ++ " " ++ batch2) w =
       (subcommands batch1 w ++ subcommands batch2 w)%list.
Proof.
  intros Hp. split.
  - unfold bind. rewrite !tokenizer_events, extend_extend.
    rewrite split_space_app. now rewrite tokens_events_app.
  - unfold subcommands. rewrite !appended_tokenizer.
    rewrite split_space_app, tokens_events_app by exact Hp.
    apply sent_app.
Qed.

Lemma batches_concatenate_witness :
  tokenizer ("P 2 0 x" ++ " " ++ "d 1") (fresh []) =
    (tokenizer "P 2 0 x" ;;; tokenizer "d 1") (fresh [])
  /\ subcommands ("P 2 0 x" ++ " " ++ "d 1") (fresh []) =
       (subcommands "P 2 0 x" (fresh []) ++ subcommands "d 1" (fresh []))%list.
Proof.
  apply (batches_concatenate "P 2 0 x" "d 1" (fresh [])).
  apply (parsed_two "P" "2" "0" ["x"]);
    [vm_compute; discriminate|reflexivity|vm_compute; discriminate|].
  apply parsed_skip; [vm_compute; discriminate|reflexivity|apply parsed_nil].
Defined.

(** X9. A word that is no command word, put between two batches of
    which the first is parsed to its end, changes nothing on the wire: the
    same sub-commands are sent as without it. *)
Theorem stray_word_changes_no_write (batch1 batch2 t : string) (w : world) :
  parsed (split batch1) ->
  is_word t = true ->
  unknown_token t ->
  subcommands (batch1 ++ " " ++ t ++ " " ++ batch2) w =
  subcommands (batch1 ++ " " ++ batch2) w.
Proof.
  intros Hp Hw (Hall & Hset). unfold subcommands.
  rewrite !appended_tokenizer, !split_space_app.
  assert (Ht : split t = [t]).
  { apply (split_join [t]). constructor; [exact Hw|constructor]. }
  rewrite Ht.
  rewrite (tokens_events_app _ ([t] ++ split batch2) Hp).
  rewrite (tokens_events_app _ (split batch2) Hp).
  cbn [app tokens_events].
  apply String.eqb_neq in Hall. rewrite Hall, Hset.
  rewrite !sent_app. reflexivity.
Qed.

Lemma stray_word_changes_no_write_witness :
  subcommands ("all" ++ " " ++ "then" ++ " " ++ "d 1") (fresh []) =
  subcommands ("all" ++ " " ++ "d 1") (fresh []).
Proof.
  apply (stray_word_changes_no_write "all" "d 1" "then" (fresh [])).
  - apply parsed_all; [reflexivity|apply parsed_nil].
  - reflexivity.
  - split; [vm_compute; discriminate|reflexivity].
Defined.

(** ** The driver once the port is open *)





















(** ** The console follows the wire *)

Lemma sent_events_split (sub : string) (evs pre post : list event)
      (bytes : string) :
  (sent_events sub ++ evs)%list = (pre ++ Tx bytes :: post)%list ->
  (bytes = sub ++ nl /\ post = Out (("Sent -> " ++ sub) ++ nl) :: evs) \/
  exists pre' : list event, evs = (pre' ++ Tx bytes :: post)%list.
Proof.
  unfold sent_events. destruct pre as [|x [|y pre']]; simpl; intros H.
  - inversion H. left. split; reflexivity.
  - inversion H.
  - inversion H. right. now exists pre'.
Qed.

Lemma tokens_events_write_logged (ts : list string) :
  forall (pre post : list event) (bytes : string),
    tokens_events ts = (pre ++ Tx bytes :: post)%list ->
    exists (sub : string) (post' : list event),
      bytes = sub ++ nl /\ post = Out (("Sent -> " ++ sub) ++ nl) :: post'.
Proof.
  induction ts as [|t rest IH] using tokens_ind; intros pre post bytes H.
  { destruct pre; discriminate. }
  cbn [tokens_events] in H.
  destruct (upper t =? "ALL").
  { apply sent_events_split in H. destruct H as [(-> & ->)|(pre' & H)].
    - eexists _, _. split; reflexivity.
    - apply (IH rest (le_n _) _ _ _ H). }
  destruct (two_arg_or_d (upper t)).
  2:{ destruct pre as [|x pre']; inversion H.
      apply (IH rest (le_n _) pre' _ _). assumption. }
  destruct (upper t =? "D").
  - destruct rest as [|a r].
    + destruct pre as [|x [|y pre']]; inversion H.
    + apply sent_events_split in H. destruct H as [(-> & ->)|(pre' & H)].
      * eexists _, _. split; reflexivity.
      * apply (IH r ltac:(simpl; lia) _ _ _ H).
  - destruct rest as [|a [|b r]].
    + destruct pre as [|x [|y pre']]; inversion H.
    + destruct pre as [|x [|y pre']]; inversion H.
    + apply sent_events_split in H. destruct H as [(-> & ->)|(pre' & H)].
      * eexists _, _. split; reflexivity.
      * apply (IH r ltac:(simpl; lia) _ _ _ H).
Qed.

(** X14. The console follows the wire: in what the tokenizer does for
    any batch, every write to the port is followed at once by the notice
    "Sent -> " with the same sub-command, the written bytes being that
    sub-command and a newline. *)
Theorem every_write_is_logged (cmd_group : string) (w : world)
        (pre post : list event) (bytes : string) :
  appended (tokenizer cmd_group) w = (pre ++ Tx bytes :: post)%list ->
  exists (sub : string) (post' : list event),
    bytes = sub ++ nl /\ post = Out ("Sent -> " ++ sub ++ nl) :: post'.
Proof.
  rewrite appended_tokenizer. apply tokens_events_write_logged.
Qed.

Lemma every_write_is_logged_witness :
  exists (sub : string) (post' : list event),
    "D 1" ++ nl = sub ++ nl
    /\ [Out ("Sent -> D 1" ++ nl); Out ("Malformed P command" ++ nl)]
       = Out ("Sent -> " ++ sub ++ nl) :: post'.
Proof.
  apply (every_write_is_logged "x d 1 p 3" (fresh [])
           [Out ("Skipping unknown token: x" ++ nl)]).
  reflexivity.
Defined.
